(** * todo-api: a task list over one SQLite table, behind HTTP handlers

    Shallow embedding of the persistence layer (package [utils]) and of the
    request handlers of [main.go], followed by the properties of the
    specification that concern them.

    - Go's [int] is a signed 64-bit integer: it is a [Z] together with an
      explicit wrap-around ([Go.wrap]) wherever the program does arithmetic.
    - The table [tasks] is the list of its rows in rowid order, together with
      the AUTOINCREMENT high-water mark that SQLite keeps in
      [sqlite_sequence].
    - Every statement sent through [database/sql] ([Exec], [Query],
      [QueryRow], [Prepare], [Begin], [Commit], [Rollback]) may fail for
      reasons outside the program (I/O, locking).  The world carries a
      schedule of outcomes, one per such call; an exhausted schedule means
      that nothing fails any more.  Closing rows and statements is not a
      statement and is left out.
    - [time.Now()] reads a clock that advances at every reading.
    - A request body is the JSON value it parses to, or nothing when it is
      not JSON; reading the body from the connection is left out.
    - Logging has no effect on the table or on the responses; it is left out. *)

From Stdlib Require Import String Ascii DecimalString.
From Stdlib Require Import ZArith List Bool Lia Sorted Permutation.
Import ListNotations.
Open Scope string_scope.
Open Scope Z_scope.

(** ** Go integers and the library functions the program calls *)

Module Go.

Definition max_int : Z := 9223372036854775807.
Definition min_int : Z := -9223372036854775808.

Definition in_range (z : Z) : bool := (min_int <=? z) && (z <=? max_int).

(** Two's complement wrap-around of [int] arithmetic. *)
Definition wrap (z : Z) : Z := (z + 9223372036854775808) mod 18446744073709551616 - 9223372036854775808.

(** [%d] of [fmt.Sprintf]. *)
Definition itoa (z : Z) : string := NilZero.string_of_int (Z.to_int z).

Definition digit (c : ascii) : option Z :=
  let n := Z.of_nat (nat_of_ascii c) in
  if (48 <=? n) && (n <=? 57) then Some (n - 48) else None.

Fixpoint digits (s : string) (acc : Z) : option Z :=
  match s with
  | EmptyString => Some acc
  | String c s' =>
      match digit c with
      | Some d => digits s' (10 * acc + d)
      | None => None
      end
  end.

(** [strconv.Atoi]: an optional sign, then decimal digits, within [int]. *)
Definition Atoi (s : string) : option Z :=
  match s with
  | EmptyString => None
  | String c s' =>
      let '(neg, ds) :=
        if Ascii.eqb c "-" then (true, s')
        else if Ascii.eqb c "+" then (false, s')
        else (false, s) in
      match ds with
      | EmptyString => None
      | _ =>
          match digits ds 0 with
          | Some n =>
              let v := if neg then - n else n in
              if in_range v then Some v else None
          | None => None
          end
      end
  end.

End Go.

(** ** models.Task *)

Record Task := mkTask {
  ID : Z;
  Title : string;
  Description : string;
  Position : Z;
  CreatedAt : Z;
  UpdatedAt : Z
}.

(** The zero value of [models.Task]. *)
Definition zero_Task : Task := mkTask 0 "" "" 0 0 0.

(** ** The table and the SQL statements of the program *)

Inductive error :=
| ErrStorage      (* the driver reported a failure *)
| ErrFull.        (* SQLITE_FULL: no rowid left for AUTOINCREMENT *)

Inductive result (A : Type) :=
| Ok (a : A)
| Err (e : error).
Arguments Ok {A} a.
Arguments Err {A} e.

Record database := mkDB {
  rows : list Task;     (* the rows of [tasks], in rowid order *)
  seq : Z               (* sqlite_sequence: the largest rowid ever used *)
}.

Definition empty_db : database := mkDB [] 0.

Module SQL.

Definition max_rowid (l : list Task) : Z :=
  fold_right (fun t m => Z.max (ID t) m) 0 l.

(** [id INTEGER PRIMARY KEY AUTOINCREMENT]: one more than the largest rowid
    that ever existed in the table. *)
Definition next_rowid (d : database) : Z := Z.max (seq d) (max_rowid (rows d)) + 1.

(** [INSERT INTO tasks (title, description, position, created_at, updated_at)
    VALUES (?, ?, ?, ?, ?)], with [LastInsertId]. *)
Definition insert (title description : string) (position created updated : Z)
           (d : database) : result (Z * database) :=
  let id := next_rowid d in
  if id <=? Go.max_int then
    Ok (id, mkDB (rows d ++ [mkTask id title description position created updated]) id)
  else Err ErrFull.

(** [UPDATE tasks SET title = ?, description = ?, position = ?, updated_at = ?
    WHERE id = ?] *)
Definition update_task (title description : string) (position updated id : Z)
           (d : database) : database :=
  mkDB (map (fun t => if ID t =? id
                      then mkTask (ID t) title description position (CreatedAt t) updated
                      else t) (rows d))
       (seq d).

(** [UPDATE tasks SET position = ?, updated_at = ? WHERE id = ?] *)
Definition update_position (position updated id : Z) (d : database) : database :=
  mkDB (map (fun t => if ID t =? id
                      then mkTask (ID t) (Title t) (Description t) position (CreatedAt t) updated
                      else t) (rows d))
       (seq d).

(** [DELETE FROM tasks WHERE id = ?]; the rowid counter is kept. *)
Definition delete (id : Z) (d : database) : database :=
  mkDB (filter (fun t => negb (ID t =? id)) (rows d)) (seq d).

(** [SELECT COUNT( * ) FROM tasks] *)
Definition count_all (d : database) : Z := Z.of_nat (length (rows d)).

(** [SELECT COUNT( * ) FROM tasks WHERE id = ?] *)
Definition count_id (id : Z) (d : database) : Z :=
  Z.of_nat (length (filter (fun t => ID t =? id) (rows d))).

(** [SELECT COUNT( * ) FROM tasks WHERE position = ?] *)
Definition count_position (position : Z) (d : database) : Z :=
  Z.of_nat (length (filter (fun t => Position t =? position) (rows d))).

(** [ORDER BY position ASC]: rows of equal position stay in rowid order, as
    the scan of [idx_position] yields them. *)
Fixpoint insert_by_position (t : Task) (l : list Task) : list Task :=
  match l with
  | [] => [t]
  | h :: r => if Position t <=? Position h then t :: l
              else h :: insert_by_position t r
  end.

Definition order_by_position (l : list Task) : list Task :=
  fold_right insert_by_position [] l.

(** [LIMIT ? OFFSET ?]: a negative limit is no limit, a negative offset is
    no offset. *)
Definition limit_offset (limit offset : Z) (l : list Task) : list Task :=
  let l' := skipn (Z.to_nat offset) l in
  if limit <? 0 then l' else firstn (Z.to_nat limit) l'.

(** [SELECT ... FROM tasks ORDER BY position ASC LIMIT ? OFFSET ?] *)
Definition select_page (limit offset : Z) (d : database) : list Task :=
  limit_offset limit offset (order_by_position (rows d)).

(** [SELECT ... FROM tasks ORDER BY id DESC LIMIT 1] *)
Fixpoint last_by_id (l : list Task) : option Task :=
  match l with
  | [] => None
  | t :: r =>
      match last_by_id r with
      | None => Some t
      | Some m => if ID m <? ID t then Some t else Some m
      end
  end.

(** [DELETE FROM tasks]; the rowid counter is kept. *)
Definition delete_all (d : database) : database := mkDB [] (seq d).

(** [SELECT ... FROM tasks ORDER BY position ASC] *)
Definition select_all (d : database) : list Task := order_by_position (rows d).

End SQL.

(** ** The world of a request and its monad *)

Record world := mkWorld {
  store : database;      (* the committed table *)
  clock : Z;             (* what [time.Now()] returns next *)
  faults : list bool     (* outcomes of the coming storage calls; [true] fails *)
}.

Definition M (A : Type) : Type := world -> A * world.

Definition ret {A} (a : A) : M A := fun w => (a, w).

Definition bind {A B} (m : M A) (k : A -> M B) : M B :=
  fun w => let (a, w') := m w in k a w'.

Declare Scope go_scope.
Delimit Scope go_scope with go.
Notation "x <- m ;; k" := (bind m (fun x => k))
  (at level 61, m at next level, right associativity) : go_scope.
Notation "m ;;; k" := (bind m (fun _ => k))
  (at level 61, right associativity) : go_scope.
Open Scope go_scope.

(** [time.Now()] *)
Definition time_Now : M Z :=
  fun w => (clock w, mkWorld (store w) (clock w + 1) (faults w)).

(** The outcome of the next storage call: [true] when it fails. *)
Definition storage_fault : M bool :=
  fun w => match faults w with
           | [] => (false, w)
           | b :: fs => (b, mkWorld (store w) (clock w) fs)
           end.

Definition get_store : M database := fun w => (store w, w).

Definition put_store (d : database) : M unit :=
  fun w => (tt, mkWorld d (clock w) (faults w)).

(** [db.Exec] of a statement outside any transaction: it is committed at
    once. *)
Definition db_Exec {A} (stmt : database -> result (A * database)) : M (result A) :=
  f <- storage_fault ;;
  if f then ret (Err ErrStorage)
  else
    d <- get_store ;;
    match stmt d with
    | Ok (a, d') => put_store d' ;;; ret (Ok a)
    | Err e => ret (Err e)
    end.

(** [db.QueryRow(...).Scan] and [db.Query]: a read of the committed table. *)
Definition db_Query {A} (q : database -> A) : M (result A) :=
  f <- storage_fault ;;
  if f then ret (Err ErrStorage)
  else d <- get_store ;; ret (Ok (q d)).

(** A statement that neither reads nor writes the table ([PRAGMA],
    [db.Prepare]). *)
Definition db_Void : M (option error) :=
  f <- storage_fault ;;
  ret (if f then Some ErrStorage else None).

(** A transaction is the writes it holds back: [tx.Commit] applies them to
    the committed table, [tx.Rollback] drops them. *)
Definition transaction : Type := database -> database.

(** [db.Begin] *)
Definition db_Begin : M (result transaction) :=
  f <- storage_fault ;;
  ret (if f then Err ErrStorage else Ok (fun d => d)).

(** [tx.Exec] of an update: nothing is committed yet. *)
Definition tx_Exec (stmt : database -> database) (tx : transaction) : M (result transaction) :=
  f <- storage_fault ;;
  ret (if f then Err ErrStorage else Ok (fun d => stmt (tx d))).

(** [tx.Commit]; a commit that fails commits nothing. *)
Definition tx_Commit (tx : transaction) : M (option error) :=
  f <- storage_fault ;;
  if f then ret (Some ErrStorage)
  else d <- get_store ;; put_store (tx d) ;;; ret None.

(** [tx.Rollback] of a transaction that is still open; its outcome is never
    looked at. *)
Definition tx_Rollback (tx : transaction) : M unit :=
  storage_fault ;;; ret tt.

(** ** Package utils *)

Module utils.

(** [AddTask]: the arguments of [db.Exec] are evaluated first, the returned
    task carries two later readings of the clock. *)
Definition AddTask (title description : string) (position : Z) : M (result Task) :=
  created <- time_Now ;;
  updated <- time_Now ;;
  r <- db_Exec (SQL.insert title description position created updated) ;;
  match r with
  | Err e => ret (Err e)
  | Ok id =>
      c <- time_Now ;;
      u <- time_Now ;;
      ret (Ok (mkTask id title description position c u))
  end.

Definition GetPaginatedTasks (offset limit : Z) : M (result (list Task * Z)) :=
  r <- db_Query SQL.count_all ;;
  match r with
  | Err e => ret (Err e)
  | Ok totalCount =>
      r' <- db_Query (SQL.select_page limit offset) ;;
      match r' with
      | Err e => ret (Err e)
      | Ok tasks => ret (Ok (tasks, totalCount))
      end
  end.

Definition UpdateTask (id : Z) (title description : string) (position : Z) : M (option error) :=
  now <- time_Now ;;
  r <- db_Exec (fun d => Ok (tt, SQL.update_task title description position now id d)) ;;
  ret (match r with Ok _ => None | Err e => Some e end).

Definition DeleteTask (id : Z) : M (option error) :=
  r <- db_Exec (fun d => Ok (tt, SQL.delete id d)) ;;
  ret (match r with Ok _ => None | Err e => Some e end).

Definition CheckTaskExists (id : Z) : M (result bool) :=
  r <- db_Query (SQL.count_id id) ;;
  ret (match r with Ok count => Ok (0 <? count) | Err e => Err e end).

Definition CheckPositionExists (position : Z) : M (result bool) :=
  r <- db_Query (SQL.count_position position) ;;
  ret (match r with Ok count => Ok (0 <? count) | Err e => Err e end).

(** [GetLastTask]: [sql.ErrNoRows] is the [None] of the query. *)
Definition GetLastTask : M (result (option Task)) :=
  db_Query (fun d => SQL.last_by_id (rows d)).

Definition batchSize : Z := 1000.

(** The body of the [for] loop of [GenerateDummyTasks], [n] iterations from
    index [i] on.  [opened] are the transactions begun so far, the latest
    first; their deferred closures run when the function returns.  The
    prepared statement belongs to [db], not to the transaction, so each
    insert is committed on its own.  ([i < count], so [i + 1] stays an
    [int].) *)
Fixpoint generate_loop (n : nat) (i startID startPosition : Z) (opened : list transaction)
  : M (option error * list transaction) :=
  match n with
  | O => ret (None, opened)
  | S n' =>
      let id := Go.wrap (startID + i) in
      let position := Go.wrap (startPosition + i) in
      let title := ("Task " ++ Go.itoa id)%string in
      let description := ("Description for task " ++ Go.itoa id)%string in
      createdAt <- time_Now ;;
      let updatedAt := createdAt in
      b <- (if i mod batchSize =? 0
            then r <- db_Begin ;;
                 ret (match r with Ok tx => Ok (tx :: opened) | Err e => Err e end)
            else ret (Ok opened)) ;;
      match b with
      | Err txErr => ret (Some txErr, opened)
      | Ok opened' =>
          r <- db_Exec (SQL.insert title description position createdAt updatedAt) ;;
          match r with
          | Err execErr => ret (Some execErr, opened')
          | Ok _ => generate_loop n' (i + 1) startID startPosition opened'
          end
      end
  end.

(** The deferred closures: each begun transaction is committed ([txErr] is
    [nil] in every closure that was registered), the outcome is dropped. *)
Fixpoint run_deferred (opened : list transaction) : M unit :=
  match opened with
  | [] => ret tt
  | tx :: rest => tx_Commit tx ;;; run_deferred rest
  end.

Definition GenerateDummyTasks (count : Z) : M (option error) :=
  r <- GetLastTask ;;
  match r with
  | Err e => ret (Some e)
  | Ok lastTask =>
      let startID := match lastTask with Some t => Go.wrap (ID t + 1) | None => 1 end in
      let startPosition := match lastTask with Some t => Go.wrap (Position t + 1) | None => 1 end in
      e1 <- db_Void ;;
      match e1 with Some e => ret (Some e) | None =>
      e2 <- db_Void ;;
      match e2 with Some e => ret (Some e) | None =>
      e3 <- db_Void ;;
      match e3 with Some e => ret (Some e) | None =>
      e4 <- db_Void ;;
      match e4 with Some e => ret (Some e) | None =>
      out <- generate_loop (Z.to_nat count) 0 startID startPosition [] ;;
      run_deferred (snd out) ;;;
      ret (fst out)
      end end end end
  end.

(** The loop of [AddTasks]. *)
Fixpoint add_each (tasks createdTasks : list Task) : M (result (list Task)) :=
  match tasks with
  | [] => ret (Ok createdTasks)
  | task :: rest =>
      r <- AddTask (Title task) (Description task) (Position task) ;;
      match r with
      | Err e => ret (Err e)
      | Ok newTask => add_each rest (createdTasks ++ [newTask])
      end
  end.

Definition AddTasks (tasks : list Task) : M (result (list Task)) := add_each tasks [].

(** [GetAllTasks]: every column is NOT NULL or written as a string, so no
    row fails to scan. *)
Definition GetAllTasks : M (result (list Task)) := db_Query SQL.select_all.

(** What [ReorderTasks] returns when it fails: its own [fmt.Errorf], or the
    error of the storage call. *)
Inductive reorder_error :=
| InvalidTaskData
| Storage (e : error).

(** The loop of [ReorderTasks]: the error after the rollback, or the
    transaction with every update in it. *)
Fixpoint reorder_each (updatedTasks : list Task) (tx : transaction)
  : M (reorder_error + transaction) :=
  match updatedTasks with
  | [] => ret (inr tx)
  | task :: rest =>
      if (ID task =? 0) || (Position task <=? 0) then
        tx_Rollback tx ;;; ret (inl InvalidTaskData)
      else
        now <- time_Now ;;
        r <- tx_Exec (SQL.update_position (Position task) now (ID task)) tx ;;
        match r with
        | Err e => tx_Rollback tx ;;; ret (inl (Storage e))
        | Ok tx' => reorder_each rest tx'
        end
  end.

Definition ReorderTasks (updatedTasks : list Task) : M (option reorder_error) :=
  b <- db_Begin ;;
  match b with
  | Err e => ret (Some (Storage e))
  | Ok tx =>
      x <- reorder_each updatedTasks tx ;;
      match x with
      | inl e => ret (Some e)
      | inr tx' =>
          e <- tx_Commit tx' ;;
          ret (option_map Storage e)
      end
  end.

Definition DeleteAllTasks : M (option error) :=
  r <- db_Exec (fun d => Ok (tt, SQL.delete_all d)) ;;
  ret (match r with Ok _ => None | Err e => Some e end).

End utils.

(** ** JSON request bodies, as [encoding/json] decodes them *)

#[local] Set Warnings "-register-all".
Inductive json :=
| JNull
| JBool (b : bool)
| JInt (z : Z)          (* a number literal that is an integer *)
| JFrac                 (* any other number literal *)
| JStr (s : string)
| JArr (l : list json)
| JObj (m : list (string * json)).
#[local] Set Warnings "register-all".

Module Json.

Definition lower_ascii (c : ascii) : ascii :=
  let n := nat_of_ascii c in
  if (Nat.leb 65 n && Nat.leb n 90)%bool then ascii_of_nat (n + 32) else c.

Fixpoint lower (s : string) : string :=
  match s with
  | EmptyString => EmptyString
  | String c s' => String (lower_ascii c) (lower s')
  end.

(** A key of the object names a struct field when it equals the field's
    tag up to the case of ASCII letters. *)
Definition names (tag key : string) : bool := String.eqb (lower key) (lower tag).

(** Decoding into an [int] field: [null] leaves it, an integer within
    [int] sets it, anything else is an error. *)
Definition decode_int (v : json) (old : Z) : option Z :=
  match v with
  | JNull => Some old
  | JInt z => if Go.in_range z then Some z else None
  | _ => None
  end.

Definition decode_string (v : json) (old : string) : option string :=
  match v with
  | JNull => Some old
  | JStr s => Some s
  | _ => None
  end.

(** The members of an object are decoded in order into the struct; a
    later member of the same name overrides an earlier one, a member that
    names no field is skipped. *)
Fixpoint decode_members {A} (set : A -> string * json -> option A)
         (m : list (string * json)) (acc : A) : option A :=
  match m with
  | [] => Some acc
  | kv :: m' =>
      match set acc kv with
      | Some acc' => decode_members set m' acc'
      | None => None
      end
  end.

Definition decode_struct {A} (set : A -> string * json -> option A) (zero : A)
           (v : json) : option A :=
  match v with
  | JNull => Some zero
  | JObj m => decode_members set m zero
  | _ => None
  end.

Fixpoint decode_elements {A} (dec : json -> option A) (l : list json) : option (list A) :=
  match l with
  | [] => Some []
  | v :: l' =>
      match dec v, decode_elements dec l' with
      | Some a, Some r => Some (a :: r)
      | _, _ => None
      end
  end.

Definition decode_slice {A} (dec : json -> option A) (v : json) : option (list A) :=
  match v with
  | JNull => Some []
  | JArr l => decode_elements dec l
  | _ => None
  end.

End Json.

(** ** Responses *)

Inductive payload :=
| H_error (msg : string)                                  (* gin.H{"error": msg} *)
| H_message (msg : string)                                (* gin.H{"message": msg} *)
| J_task (t : Task)
| J_tasks (l : list Task).

Record response := mkResponse {
  status : Z;
  content : payload
}.

Module http.
Definition StatusOK : Z := 200.
Definition StatusCreated : Z := 201.
Definition StatusBadRequest : Z := 400.
Definition StatusNotFound : Z := 404.
Definition StatusInternalServerError : Z := 500.
End http.

(** ** The request handlers of main.go *)

Module main.

Import http.

Definition JSON (code : Z) (obj : payload) : M response := ret (mkResponse code obj).

(** *** POST /tasks *)

Section PostTasks.

(** [time.Time]'s own [UnmarshalJSON], on the text of a JSON string. *)
Variable parse_time : string -> option Z.

Definition decode_time (v : json) (old : Z) : option Z :=
  match v with
  | JNull => Some old
  | JStr s => parse_time s
  | _ => None
  end.

Definition set_Task_field (t : Task) (kv : string * json) : option Task :=
  let (k, v) := kv in
  if Json.names "id" k then
    option_map (fun x => mkTask x (Title t) (Description t) (Position t) (CreatedAt t) (UpdatedAt t))
               (Json.decode_int v (ID t))
  else if Json.names "title" k then
    option_map (fun x => mkTask (ID t) x (Description t) (Position t) (CreatedAt t) (UpdatedAt t))
               (Json.decode_string v (Title t))
  else if Json.names "description" k then
    option_map (fun x => mkTask (ID t) (Title t) x (Position t) (CreatedAt t) (UpdatedAt t))
               (Json.decode_string v (Description t))
  else if Json.names "position" k then
    option_map (fun x => mkTask (ID t) (Title t) (Description t) x (CreatedAt t) (UpdatedAt t))
               (Json.decode_int v (Position t))
  else if Json.names "createdAt" k then
    option_map (fun x => mkTask (ID t) (Title t) (Description t) (Position t) x (UpdatedAt t))
               (decode_time v (CreatedAt t))
  else if Json.names "updatedAt" k then
    option_map (fun x => mkTask (ID t) (Title t) (Description t) (Position t) (CreatedAt t) x)
               (decode_time v (UpdatedAt t))
  else Some t.

(** [json.Unmarshal(body, &singleTask)]; [None] is a body that is not
    JSON. *)
Definition Unmarshal_Task (body : option json) : option Task :=
  match body with
  | Some v => Json.decode_struct set_Task_field zero_Task v
  | None => None
  end.

(** [json.Unmarshal(body, &multipleTasks)] *)
Definition Unmarshal_Tasks (body : option json) : option (list Task) :=
  match body with
  | Some v => Json.decode_slice (Json.decode_struct set_Task_field zero_Task) v
  | None => None
  end.

(** The first loop of the array branch: every item is checked, in array
    order, before anything is inserted.  [Some] is the response of the
    item that ends the request. *)
Fixpoint check_tasks (multipleTasks : list Task) : M (option response) :=
  match multipleTasks with
  | [] => ret None
  | task :: rest =>
      if (Title task =? "")%string || (Position task <=? 0) then
        ret (Some (mkResponse StatusBadRequest
                     (H_error "Title and position are required for all tasks")))
      else
        r <- utils.CheckPositionExists (Position task) ;;
        match r with
        | Err _ => ret (Some (mkResponse StatusInternalServerError
                                (H_error "Failed to check position existence")))
        | Ok true => ret (Some (mkResponse StatusBadRequest
                                  (H_error ("Position " ++ Go.itoa (Position task) ++ " already exists"))))
        | Ok false => check_tasks rest
        end
  end.

(** The second loop: one [AddTask] per item, each committed on its own. *)
Fixpoint add_tasks (multipleTasks createdTasks : list Task) : M response :=
  match multipleTasks with
  | [] => JSON StatusCreated (J_tasks createdTasks)
  | task :: rest =>
      r <- utils.AddTask (Title task) (Description task) (Position task) ;;
      match r with
      | Err _ => JSON StatusInternalServerError (H_error "Failed to add tasks")
      | Ok newTask => add_tasks rest (createdTasks ++ [newTask])
      end
  end.

Definition post_tasks_array (multipleTasks : list Task) : M response :=
  c <- check_tasks multipleTasks ;;
  match c with
  | Some resp => ret resp
  | None => add_tasks multipleTasks []
  end.

Definition post_tasks_single (singleTask : Task) : M response :=
  if (Title singleTask =? "")%string || (Position singleTask <=? 0) then
    JSON StatusBadRequest (H_error "Title and position are required")
  else
    r <- utils.CheckPositionExists (Position singleTask) ;;
    match r with
    | Err _ => JSON StatusInternalServerError (H_error "Failed to check position existence")
    | Ok true =>
        JSON StatusBadRequest
             (H_error ("Position " ++ Go.itoa (Position singleTask) ++ " already exists"))
    | Ok false =>
        a <- utils.AddTask (Title singleTask) (Description singleTask) (Position singleTask) ;;
        match a with
        | Err _ => JSON StatusInternalServerError (H_error "Failed to add task")
        | Ok task => JSON StatusCreated (J_task task)
        end
    end.

Definition post_tasks_object (body : option json) : M response :=
  match Unmarshal_Task body with
  | Some singleTask => post_tasks_single singleTask
  | None => JSON StatusBadRequest (H_error "Invalid request body")
  end.

Definition post_tasks (body : option json) : M response :=
  match Unmarshal_Tasks body with
  | Some multipleTasks =>
      if (0 <? length multipleTasks)%nat then post_tasks_array multipleTasks
      else post_tasks_object body
  | None => post_tasks_object body
  end.

End PostTasks.

(** *** PUT /tasks/:id *)

Record update_input := mkInput {
  in_Title : string;
  in_Description : string;
  in_Position : Z
}.

Definition set_input_field (i : update_input) (kv : string * json) : option update_input :=
  let (k, v) := kv in
  if Json.names "title" k then
    option_map (fun x => mkInput x (in_Description i) (in_Position i))
               (Json.decode_string v (in_Title i))
  else if Json.names "description" k then
    option_map (fun x => mkInput (in_Title i) x (in_Position i))
               (Json.decode_string v (in_Description i))
  else if Json.names "position" k then
    option_map (fun x => mkInput (in_Title i) (in_Description i) x)
               (Json.decode_int v (in_Position i))
  else Some i.

(** [c.ShouldBindJSON(&input)]: the struct carries no binding tag, so the
    binding is the decoding. *)
Definition bind_input (body : option json) : option update_input :=
  match body with
  | Some v => Json.decode_struct set_input_field (mkInput "" "" 0) v
  | None => None
  end.

Definition put_task (idParam : string) (body : option json) : M response :=
  match Go.Atoi idParam with
  | None => JSON StatusBadRequest (H_error "Invalid task ID")
  | Some id =>
      if id <=? 0 then JSON StatusBadRequest (H_error "Invalid task ID")
      else
        r <- utils.CheckTaskExists id ;;
        match r with
        | Err _ => JSON StatusInternalServerError (H_error "Failed to check task existence")
        | Ok false => JSON StatusNotFound (H_error "Task not found")
        | Ok true =>
            match bind_input body with
            | None => JSON StatusBadRequest (H_error "Invalid request body")
            | Some input =>
                e <- utils.UpdateTask id (in_Title input) (in_Description input) (in_Position input) ;;
                match e with
                | Some _ => JSON StatusInternalServerError (H_error "Failed to update task")
                | None => JSON StatusOK (H_message "Task updated successfully")
                end
            end
        end
  end.

(** *** PATCH /tasks/reorder *)

Record reorder_item := mkItem {
  item_ID : Z;
  item_Position : Z
}.

Definition set_item_field (i : reorder_item) (kv : string * json) : option reorder_item :=
  let (k, v) := kv in
  if Json.names "id" k then
    option_map (fun x => mkItem x (item_Position i)) (Json.decode_int v (item_ID i))
  else if Json.names "position" k then
    option_map (fun x => mkItem (item_ID i) x) (Json.decode_int v (item_Position i))
  else Some i.

(** [c.ShouldBindJSON(&updatedTasks)] *)
Definition bind_items (body : option json) : option (list reorder_item) :=
  match body with
  | Some v => Json.decode_slice (Json.decode_struct set_item_field (mkItem 0 0)) v
  | None => None
  end.

(** The loop before the transaction: [Some] is the response of the pair
    that ends the request. *)
Fixpoint check_items (updatedTasks : list reorder_item) : M (option response) :=
  match updatedTasks with
  | [] => ret None
  | task :: rest =>
      if (item_ID task =? 0) || (item_Position task <=? 0) then
        ret (Some (mkResponse StatusBadRequest
                     (H_error "ID and position are required for all tasks")))
      else
        r <- utils.CheckTaskExists (item_ID task) ;;
        match r with
        | Err _ => ret (Some (mkResponse StatusInternalServerError
                                (H_error "Failed to check task existence")))
        | Ok false => ret (Some (mkResponse StatusNotFound
                                   (H_error ("Task with ID " ++ Go.itoa (item_ID task) ++ " not found"))))
        | Ok true => check_items rest
        end
  end.

(** The loop inside the transaction: the response of the update that
    failed, or the transaction with every update in it. *)
Fixpoint exec_items (updatedTasks : list reorder_item) (tx : transaction)
  : M (response + transaction) :=
  match updatedTasks with
  | [] => ret (inr tx)
  | task :: rest =>
      updatedAt <- time_Now ;;
      r <- tx_Exec (SQL.update_position (item_Position task) updatedAt (item_ID task)) tx ;;
      match r with
      | Err _ => ret (inl (mkResponse StatusInternalServerError
                             (H_error ("Failed to update task with ID " ++ Go.itoa (item_ID task)))))
      | Ok tx' => exec_items rest tx'
      end
  end.

(** [defer tx.Rollback()] runs on every return after [Begin]; once
    [Commit] has been called it finds the transaction closed and does
    nothing. *)
Definition patch_reorder (body : option json) : M response :=
  match bind_items body with
  | None => JSON StatusBadRequest (H_error "Invalid request body")
  | Some updatedTasks =>
      c <- check_items updatedTasks ;;
      match c with
      | Some resp => ret resp
      | None =>
          b <- db_Begin ;;
          match b with
          | Err _ => JSON StatusInternalServerError (H_error "Failed to start transaction")
          | Ok tx =>
              x <- exec_items updatedTasks tx ;;
              match x with
              | inl resp => tx_Rollback tx ;;; ret resp
              | inr tx' =>
                  e <- tx_Commit tx' ;;
                  match e with
                  | Some _ => JSON StatusInternalServerError (H_error "Failed to commit transaction")
                  | None => JSON StatusOK (H_message "Tasks reordered successfully")
                  end
              end
          end
      end
  end.

(** *** GET /tasks *)

(** The body of the 200 answer: [gin.H] with [_totalTasks], [page], [limit]
    and [tasks]. *)
Record listing := mkListing {
  totalTasks : Z;
  page : Z;
  limit : Z;
  tasks : list Task
}.

(** [c.DefaultQuery]: the value of the parameter when the query has it,
    even empty; the default otherwise. *)
Definition DefaultQuery (q : option string) (defaultValue : string) : string :=
  match q with
  | Some s => s
  | None => defaultValue
  end.

(** [c.Query]: the empty string when the query lacks the parameter. *)
Definition Query (q : option string) : string := DefaultQuery q "".

(** [inr] is the answer 200 with the listing. *)
Definition get_tasks (pageQuery limitQuery : option string) : M (response + listing) :=
  let pageStr := DefaultQuery pageQuery "1" in
  let limitStr := DefaultQuery limitQuery "10" in
  match Go.Atoi pageStr with
  | None => ret (inl (mkResponse StatusBadRequest (H_error "Invalid page value")))
  | Some page =>
      if page <=? 0 then ret (inl (mkResponse StatusBadRequest (H_error "Invalid page value")))
      else
        match Go.Atoi limitStr with
        | None => ret (inl (mkResponse StatusBadRequest (H_error "Invalid limit value")))
        | Some limit =>
            if limit <=? 0
            then ret (inl (mkResponse StatusBadRequest (H_error "Invalid limit value")))
            else
              let offset := Go.wrap ((page - 1) * limit) in
              r <- utils.GetPaginatedTasks offset limit ;;
              match r with
              | Err _ => ret (inl (mkResponse StatusInternalServerError
                                     (H_error "Failed to fetch tasks")))
              | Ok (tasks, totalCount) => ret (inr (mkListing totalCount page limit tasks))
              end
        end
  end.

(** *** POST /tasks/generate *)

Definition post_generate (countQuery : option string) : M response :=
  let countStr := Query countQuery in
  if (countStr =? "")%string then
    JSON StatusBadRequest (H_error "Count parameter is required")
  else
    match Go.Atoi countStr with
    | None => JSON StatusBadRequest (H_error "Invalid count value")
    | Some count =>
        if count <=? 0 then JSON StatusBadRequest (H_error "Invalid count value")
        else
          e <- utils.GenerateDummyTasks count ;;
          match e with
          | Some _ => JSON StatusInternalServerError (H_error "Failed to generate dummy tasks")
          | None =>
              JSON StatusOK
                   (H_message ("Successfully generated " ++ Go.itoa count ++ " dummy tasks"))
          end
    end.

(** *** DELETE /tasks/:id *)

Definition delete_task (idParam : string) : M response :=
  match Go.Atoi idParam with
  | None => JSON StatusBadRequest (H_error "Invalid task ID")
  | Some id =>
      if id <=? 0 then JSON StatusBadRequest (H_error "Invalid task ID")
      else
        r <- utils.CheckTaskExists id ;;
        match r with
        | Err _ => JSON StatusInternalServerError (H_error "Failed to check task existence")
        | Ok false => JSON StatusNotFound (H_error "Task not found")
        | Ok true =>
            e <- utils.DeleteTask id ;;
            match e with
            | Some _ => JSON StatusInternalServerError (H_error "Failed to delete task")
            | None => JSON StatusOK (H_message "Task deleted successfully")
            end
        end
  end.

(** *** DELETE /tasks *)

Definition delete_tasks : M response :=
  e <- utils.DeleteAllTasks ;;
  match e with
  | Some _ => JSON StatusInternalServerError (H_error "Failed to delete all tasks")
  | None => JSON StatusOK (H_message "All tasks deleted successfully")
  end.

(** *** The routes registered by [main] *)

Inductive request :=
| GET_tasks (pageQuery limitQuery : option string)
| POST_tasks (body : option json)
| POST_tasks_generate (countQuery : option string)
| PUT_tasks_id (idParam : string) (body : option json)
| DELETE_tasks_id (idParam : string)
| DELETE_tasks
| PATCH_tasks_reorder (body : option json).

Definition serve (parse_time : string -> option Z) (r : request) : M (response + listing) :=
  match r with
  | GET_tasks pageQuery limitQuery => get_tasks pageQuery limitQuery
  | POST_tasks body => resp <- post_tasks parse_time body ;; ret (inl resp)
  | POST_tasks_generate countQuery => resp <- post_generate countQuery ;; ret (inl resp)
  | PUT_tasks_id idParam body => resp <- put_task idParam body ;; ret (inl resp)
  | DELETE_tasks_id idParam => resp <- delete_task idParam ;; ret (inl resp)
  | DELETE_tasks => resp <- delete_tasks ;; ret (inl resp)
  | PATCH_tasks_reorder body => resp <- patch_reorder body ;; ret (inl resp)
  end.

(** The world after the requests have been served one after the other. *)
Fixpoint serve_all (parse_time : string -> option Z) (rs : list request) (w : world) : world :=
  match rs with
  | [] => w
  | r :: rest => serve_all parse_time rest (snd (serve parse_time r w))
  end.

End main.

(** * Vocabulary of the properties *)

Import main http.

(** ** Fault schedules *)

(** The next [n] storage calls succeed. *)
Definition quiet (n : nat) (fs : list bool) : Prop :=
  forall k, (k < n)%nat -> nth k fs false = false.

(** No storage call fails any more. *)
Definition silent (fs : list bool) : Prop := forall n, quiet n fs.

(** ** PATCH /tasks/reorder *)

(** A pair that the loop before the transaction lets through. *)
Definition item_ok (d : database) (it : reorder_item) : Prop :=
  item_ID it <> 0 /\ 0 < item_Position it /\ 0 < SQL.count_id (item_ID it) d.


(** The response to an update that failed inside the transaction. *)
Definition update_failed (it : reorder_item) : response :=
  mkResponse StatusInternalServerError
             (H_error ("Failed to update task with ID " ++ Go.itoa (item_ID it))).

(** The updates of the batch, applied in order from clock reading [c]. *)
Fixpoint apply_items (items : list reorder_item) (c : Z) (d : database) : database :=
  match items with
  | [] => d
  | it :: rest =>
      apply_items rest (c + 1) (SQL.update_position (item_Position it) c (item_ID it) d)
  end.

(** ** PUT /tasks/:id *)



(** ** POST /tasks, array branch *)

(** An item that the first loop lets through: a title, a positive position,
    and no stored row at that position. *)
Definition task_ok (d : database) (t : Task) : Prop :=
  Title t <> "" /\ 0 < Position t /\ SQL.count_position (Position t) d = 0.

(** The table after the inserts of [items], one [AddTask] each, the first
    at clock reading [c]. *)
Fixpoint insert_all (items : list Task) (c : Z) (d : database) : database :=
  match items with
  | [] => d
  | t :: rest =>
      insert_all rest (c + 4)
        (mkDB (rows d ++ [mkTask (SQL.next_rowid d) (Title t) (Description t) (Position t) c (c + 1)])
              (SQL.next_rowid d))
  end.

(** The rows that these inserts store, ids counted from [id]. *)
Fixpoint stored_rows (items : list Task) (id c : Z) : list Task :=
  match items with
  | [] => []
  | t :: rest =>
      mkTask id (Title t) (Description t) (Position t) c (c + 1)
      :: stored_rows rest (id + 1) (c + 4)
  end.

(** The tasks that the handler returns for them. *)
Fixpoint returned_tasks (items : list Task) (id c : Z) : list Task :=
  match items with
  | [] => []
  | t :: rest =>
      mkTask id (Title t) (Description t) (Position t) (c + 2) (c + 3)
      :: returned_tasks rest (id + 1) (c + 4)
  end.

Definition add_failed : response :=
  mkResponse StatusInternalServerError (H_error "Failed to add tasks").

(** ** GenerateDummyTasks *)

(** A transaction that holds no write. *)
Definition holds_nothing (tx : transaction) : Prop := forall d, tx d = d.

(** The position of the row with the largest id; 0 for the empty table. *)
Definition last_position (d : database) : Z :=
  match SQL.last_by_id (rows d) with
  | Some t => Position t
  | None => 0
  end.

(** The largest position in the table; 0 for the empty table. *)
Definition max_position (d : database) : Z :=
  fold_right (fun t m => Z.max (Position t) m) 0 (rows d).

(** [n] consecutive integers from [a] on. *)
Fixpoint consecutive (a : Z) (n : nat) : list Z :=
  match n with
  | O => []
  | S n' => a :: consecutive (a + 1) n'
  end.

(** The rows that [n] iterations of the loop insert, from index [i], rowid
    [id] and clock reading [c] on. *)
Fixpoint generated_rows (n : nat) (i startID startPosition id c : Z) : list Task :=
  match n with
  | O => []
  | S n' =>
      mkTask id
             ("Task " ++ Go.itoa (Go.wrap (startID + i)))
             ("Description for task " ++ Go.itoa (Go.wrap (startID + i)))
             (Go.wrap (startPosition + i)) c c
      :: generated_rows n' (i + 1) startID startPosition (id + 1) (c + 1)
  end.

(** [startID] of [GenerateDummyTasks]. *)
Definition start_id (d : database) : Z :=
  match SQL.last_by_id (rows d) with
  | Some t => Go.wrap (ID t + 1)
  | None => 1
  end.

(** [startPosition] of [GenerateDummyTasks]. *)
Definition start_position (d : database) : Z :=
  match SQL.last_by_id (rows d) with
  | Some t => Go.wrap (Position t + 1)
  | None => 1
  end.

(** ** Listing *)

(** Positions never decrease along the list. *)
Definition ascending (l : list Task) : Prop :=
  StronglySorted (fun a b => Position a <= Position b) l.

(** Positions increase along the list. *)
Definition strictly_ascending (l : list Task) : Prop :=
  StronglySorted (fun a b => Position a < Position b) l.

(** ** The invariant of the data model *)

(** No two rows of the table share a position. *)
Definition distinct_positions (d : database) : Prop :=
  NoDup (map Position (rows d)).

(** ** Sample tables *)

(** The world before the first request: an empty table, nothing fails. *)
Definition fresh_world : world := mkWorld empty_db 100 [].

(** An array body whose two items carry the same position. *)
Definition twin_body : option json :=
  Some (JArr [JObj [("title", JStr "A"); ("position", JInt 1)];
              JObj [("title", JStr "B"); ("position", JInt 1)]]).

(** A [time.Time] parser that accepts nothing; the sample bodies carry no
    timestamp. *)
Definition no_time (s : string) : option Z := None.


(** One task per request. *)
Definition single_body (title : string) (position : Z) : option json :=
  Some (JObj [("title", JStr title); ("position", JInt position)]).

(** The world after two single creates, at positions 1 and 2. *)
Definition two_created : world :=
  snd (post_tasks no_time (single_body "B" 2)
         (snd (post_tasks no_time (single_body "A" 1) fresh_world))).

(** The world after three single creates, at positions 5, 1 and 3, and the
    deletion of the third task. *)
Definition three_created_one_deleted : world :=
  snd (utils.DeleteTask 3
         (snd (post_tasks no_time (single_body "C" 3)
                 (snd (post_tasks no_time (single_body "B" 1)
                         (snd (post_tasks no_time (single_body "A" 5) fresh_world))))))).

(** Two tasks, at positions 1 and 2. *)
Definition two_tasks : database :=
  mkDB [mkTask 1 "A" "" 1 10 11; mkTask 2 "B" "" 2 14 15] 2.

(** ** The primary key and the rowid counter *)

(** Ids are a key, they are positive, and the counter has passed them all. *)
Definition keyed (d : database) : Prop :=
  NoDup (map ID (rows d)) /\
  Forall (fun t => 0 < ID t <= seq d) (rows d) /\
  0 <= seq d.

(** From [d] to [d']: the key is kept, the counter does not go back, and a
    row of [d'] either continues a row of [d], with its id and its creation
    time, or carries an id that the counter of [d] had not reached. *)
Definition grows (d d' : database) : Prop :=
  keyed d ->
  keyed d' /\
  seq d <= seq d' /\
  forall t', In t' (rows d') ->
    (exists t, In t (rows d) /\ ID t = ID t' /\ CreatedAt t = CreatedAt t') \/
    seq d < ID t'.


(** Whatever the world, the computation returns a value in [Q] and moves
    the committed table along [R]. *)
Definition keeps (R : database -> database -> Prop) {A} (Q : A -> Prop) (m : M A) : Prop :=
  forall w, Q (fst (m w)) /\ R (store w) (store (snd (m w))).

(** A transaction whose writes, once committed, move the table along [R]. *)
Definition within (R : database -> database -> Prop) (tx : transaction) : Prop :=
  forall d, R d (tx d).

(** The requests that create one task at a time, delete or list: a POST is
    among them when its body is not taken by the array branch. *)
Definition one_at_a_time (parse_time : string -> option Z) (r : request) : Prop :=
  match r with
  | GET_tasks _ _ => True
  | POST_tasks body =>
      match Unmarshal_Tasks parse_time body with
      | Some (_ :: _) => False
      | _ => True
      end
  | DELETE_tasks_id _ => True
  | DELETE_tasks => True
  | _ => False
  end.


(** ** ReorderTasks *)

(** A task that the loop of [ReorderTasks] refuses. *)
Definition invalid_task (t : Task) : Prop := ID t = 0 \/ Position t <= 0.

(** The updates of [ReorderTasks], applied in order from clock reading [c]. *)
Fixpoint apply_tasks (updatedTasks : list Task) (c : Z) (d : database) : database :=
  match updatedTasks with
  | [] => d
  | t :: rest => apply_tasks rest (c + 1) (SQL.update_position (Position t) c (ID t) d)
  end.

(** The pair of the handler, as the task that [ReorderTasks] takes. *)
Definition task_of_item (it : reorder_item) : Task :=
  mkTask (item_ID it) "" "" (item_Position it) 0 0.

(** ** Pages *)

(** The rows ranked [offset], ..., [offset + limit - 1] by position. *)
Definition window (offset limit : Z) (d : database) : list Task :=
  firstn (Z.to_nat limit) (skipn (Z.to_nat offset) (SQL.order_by_position (rows d))).

(** ** Query and path parameters *)

(** The positive [int] that the text is, if it is one: what the handlers
    accept for [page], [limit], [count] and [:id]. *)
Definition positive_int (s : string) : option Z :=
  match Go.Atoi s with
  | Some n => if n <=? 0 then None else Some n
  | None => None
  end.

Definition bad_request (msg : string) : response :=
  mkResponse StatusBadRequest (H_error msg).

(** * Properties *)

(** ** Fault schedules *)

Lemma quiet_nil n : quiet n [].
Proof. intros k _. now destruct k. Qed.

Lemma quiet_S n fs : quiet (S n) fs -> hd false fs = false /\ quiet n (tl fs).
Proof.
  intros H. split.
  - specialize (H 0%nat). destruct fs; [reflexivity|]. apply H. lia.
  - intros k Hk. specialize (H (S k)). destruct fs; [now destruct k|]. apply H. lia.
Qed.

Lemma quiet_weaken n m fs : (m <= n)%nat -> quiet n fs -> quiet m fs.
Proof. intros Hle H k Hk. apply H. lia. Qed.

Lemma skipn_tl {A} n (l : list A) : skipn n (tl l) = tl (skipn n l).
Proof.
  revert l. induction n as [|n IH]; intros l; [reflexivity|].
  destruct l as [|a l]; [reflexivity|]. simpl. rewrite <- IH.
  destruct l; [now destruct n | reflexivity].
Qed.

Lemma skipn_S_tl {A} n (l : list A) : skipn (S n) l = skipn n (tl l).
Proof. destruct l; [now destruct n | reflexivity]. Qed.

Lemma quiet_firstn n fs : forallb negb (firstn n fs) = true -> quiet n fs.
Proof.
  revert fs. induction n as [|n IH]; intros fs H k Hk; [lia|].
  destruct fs as [|b fs]; [now destruct k|].
  cbn in H. apply andb_true_iff in H as [Hb H].
  destruct k as [|k]; [now destruct b|]. apply (IH fs H). lia.
Qed.

Lemma tl_skipn {A} n (l : list A) : tl (skipn n l) = skipn (S n) l.
Proof. now rewrite skipn_S_tl, skipn_tl. Qed.

Lemma quiet_skipn n m fs : quiet (n + m) fs -> quiet m (skipn n fs).
Proof.
  revert fs. induction n as [|n IH]; intros fs H; [exact H|].
  rewrite skipn_S_tl. apply IH. now apply quiet_S in H.
Qed.

Lemma nth_skipn_hd n (fs : list bool) : hd false (skipn n fs) = nth n fs false.
Proof.
  revert fs. induction n as [|n IH]; intros fs.
  - now destruct fs.
  - destruct fs; [reflexivity|]. apply IH.
Qed.

(** Two runs that agree up to the arithmetic of the clock and of the
    schedule. *)
Ltac same_run :=
  f_equal; try reflexivity; f_equal; try reflexivity; try lia.

(** ** One storage call *)

Lemma storage_fault_run d c fs :
  storage_fault (mkWorld d c fs) = (hd false fs, mkWorld d c (tl fs)).
Proof. now destruct fs. Qed.

Lemma db_Query_ok {A} (q : database -> A) d c fs :
  hd false fs = false ->
  db_Query q (mkWorld d c fs) = (Ok (q d), mkWorld d c (tl fs)).
Proof. intros H. unfold db_Query, bind. rewrite storage_fault_run, H. reflexivity. Qed.

Lemma db_Query_fail {A} (q : database -> A) d c fs :
  hd false fs = true ->
  db_Query q (mkWorld d c fs) = (Err ErrStorage, mkWorld d c (tl fs)).
Proof. intros H. unfold db_Query, bind. rewrite storage_fault_run, H. reflexivity. Qed.

Lemma db_Query_frame {A} (q : database -> A) w :
  store (snd (db_Query q w)) = store w /\ clock (snd (db_Query q w)) = clock w.
Proof.
  destruct w as [d c fs]. unfold db_Query, bind. rewrite storage_fault_run.
  now destruct (hd false fs).
Qed.

Lemma CheckTaskExists_ok id d c fs :
  hd false fs = false ->
  utils.CheckTaskExists id (mkWorld d c fs) = (Ok (0 <? SQL.count_id id d), mkWorld d c (tl fs)).
Proof. intros H. unfold utils.CheckTaskExists, bind. now rewrite db_Query_ok. Qed.

Lemma CheckPositionExists_ok p d c fs :
  hd false fs = false ->
  utils.CheckPositionExists p (mkWorld d c fs)
  = (Ok (0 <? SQL.count_position p d), mkWorld d c (tl fs)).
Proof. intros H. unfold utils.CheckPositionExists, bind. now rewrite db_Query_ok. Qed.

Lemma CheckTaskExists_frame id w :
  store (snd (utils.CheckTaskExists id w)) = store w.
Proof.
  unfold utils.CheckTaskExists, bind.
  pose proof (db_Query_frame (SQL.count_id id) w) as [H _].
  destruct (db_Query (SQL.count_id id) w) as [r w']. exact H.
Qed.


(** ** PATCH /tasks/reorder *)

Lemma check_items_frame items : forall w,
  store (snd (check_items items w)) = store w.
Proof.
  induction items as [|it rest IH]; intros w; [reflexivity|].
  simpl. destruct ((item_ID it =? 0) || (item_Position it <=? 0)); [reflexivity|].
  unfold bind. pose proof (CheckTaskExists_frame (item_ID it) w) as Hf.
  destruct (utils.CheckTaskExists (item_ID it) w) as [[[]|e] w1]; simpl in *;
    try exact Hf.
  rewrite IH. exact Hf.
Qed.

Lemma check_items_pass items : forall d c fs,
  Forall (item_ok d) items ->
  quiet (length items) fs ->
  check_items items (mkWorld d c fs) = (None, mkWorld d c (skipn (length items) fs)).
Proof.
  induction items as [|it rest IH]; intros d c fs Hok Hq; [reflexivity|].
  inversion Hok as [|? ? [Hid [Hpos Hex]] Hrest]; subst.
  apply quiet_S in Hq as [Hhd Hq].
  cbn [check_items length].
  replace (item_ID it =? 0) with false by (symmetry; now apply Z.eqb_neq).
  replace (item_Position it <=? 0) with false by (symmetry; apply Z.leb_gt; lia).
  cbn [orb]. unfold bind at 1. rewrite CheckTaskExists_ok by assumption.
  replace (0 <? SQL.count_id (item_ID it) d) with true by (symmetry; now apply Z.ltb_lt).
  rewrite IH by assumption. now rewrite skipn_S_tl.
Qed.


Lemma exec_items_frame items : forall tx w,
  store (snd (exec_items items tx w)) = store w.
Proof.
  induction items as [|it rest IH]; intros tx [d c fs]; [reflexivity|].
  cbn [exec_items]. unfold bind, time_Now, tx_Exec, bind. cbn.
  rewrite storage_fault_run. destruct (hd false fs); cbn; [reflexivity|].
  now rewrite IH.
Qed.

Lemma exec_items_pass items : forall tx d c fs,
  quiet (length items) fs ->
  exec_items items tx (mkWorld d c fs)
  = (inr (fun d0 => apply_items items c (tx d0)),
     mkWorld d (c + Z.of_nat (length items)) (skipn (length items) fs)).
Proof.
  induction items as [|it rest IH]; intros tx d c fs Hq.
  - cbn. now rewrite Z.add_0_r.
  - apply quiet_S in Hq as [Hhd Hq].
    cbn [exec_items]. unfold bind, time_Now, tx_Exec, bind. cbn [store clock faults].
    rewrite storage_fault_run, Hhd. cbn [ret].
    rewrite IH by assumption. cbn [apply_items length]. rewrite skipn_S_tl.
    f_equal. f_equal. lia.
Qed.

(** The update of index [k] is the first storage call of the loop to fail. *)
Lemma exec_items_fail items : forall k tx d c fs it,
  nth_error items k = Some it ->
  quiet k fs ->
  nth k fs false = true ->
  exec_items items tx (mkWorld d c fs)
  = (inl (update_failed it), mkWorld d (c + Z.of_nat k + 1) (skipn (S k) fs)).
Proof.
  induction items as [|it0 rest IH]; intros k tx d c fs it Hnth Hq Hk.
  - now destruct k.
  - cbn [exec_items]. unfold bind, time_Now, tx_Exec, bind. cbn [store clock faults].
    rewrite storage_fault_run. destruct k as [|k].
    + injection Hnth as <-. rewrite <- nth_skipn_hd in Hk. cbn in Hk. rewrite Hk.
      rewrite skipn_S_tl. cbn. now rewrite Z.add_0_r.
    + apply quiet_S in Hq as [Hhd Hq]. rewrite Hhd. cbn [ret].
      rewrite (IH k _ _ _ _ it Hnth Hq).
      * rewrite (skipn_S_tl (S k)). do 3 f_equal. lia.
      * destruct fs; [discriminate Hk | exact Hk].
Qed.

(** Only the commit writes: every other outcome leaves the committed
    table as it was. *)
Lemma patch_reorder_frame body w resp w' :
  patch_reorder body w = (resp, w') ->
  status resp <> StatusOK ->
  store w' = store w.
Proof.
  unfold patch_reorder. destruct (bind_items body) as [items|].
  2:{ intros H _. now inversion H. }
  unfold bind at 1. pose proof (check_items_frame items w) as Hc.
  destruct (check_items items w) as [[r|] w1]; cbn [snd] in Hc.
  { intros H _. inversion H; subst. exact Hc. }
  unfold bind at 1. unfold db_Begin, bind at 1.
  destruct w1 as [d1 c1 fs1]. rewrite storage_fault_run.
  destruct (hd false fs1); cbn [ret].
  { intros H _. inversion H; subst. exact Hc. }
  unfold bind at 1.
  pose proof (exec_items_frame items (fun d => d) (mkWorld d1 c1 (tl fs1))) as He.
  destruct (exec_items items (fun d => d) (mkWorld d1 c1 (tl fs1))) as [[r|tx'] [d2 c2 fs2]];
    cbn [snd store] in He, Hc.
  - unfold bind, tx_Rollback, bind. rewrite storage_fault_run. cbn.
    intros H _. inversion H; subst. cbn. congruence.
  - unfold bind, tx_Commit, bind. rewrite storage_fault_run.
    destruct (hd false fs2); cbn; intros H Hs; inversion H; subst; cbn in *.
    + congruence.
    + now elim Hs.
Qed.




(** The update of index [k] fails: the response names it and the deferred
    rollback leaves the committed table as it was before the request. *)
Lemma patch_reorder_update_fails body items k it d c fs :
  bind_items body = Some items ->
  Forall (item_ok d) items ->
  nth_error items k = Some it ->
  quiet (length items + 1 + k) fs ->
  nth (length items + 1 + k) fs false = true ->
  patch_reorder body (mkWorld d c fs)
  = (update_failed it,
     mkWorld d (c + Z.of_nat k + 1) (skipn (length items + 1 + k + 2) fs)).
Proof.
  intros Hb Hok Hnth Hq Hk.
  assert (Hq1 : quiet (length items) fs) by (eapply quiet_weaken; [|exact Hq]; lia).
  assert (Hq2 : quiet (1 + k) (skipn (length items) fs)).
  { apply quiet_skipn. eapply quiet_weaken; [|exact Hq]. lia. }
  apply quiet_S in Hq2 as [Hhd Hq2].
  unfold patch_reorder. rewrite Hb. unfold bind at 1.
  rewrite check_items_pass by assumption.
  unfold bind at 1. unfold db_Begin, bind at 1. rewrite storage_fault_run, Hhd. cbn [ret].
  unfold bind at 1.
  rewrite (exec_items_fail items k _ _ _ _ it Hnth Hq2).
  - unfold bind, tx_Rollback, bind. rewrite storage_fault_run. unfold ret.
    f_equal. f_equal.
    rewrite !tl_skipn, skipn_skipn. f_equal. lia.
  - rewrite <- nth_skipn_hd, tl_skipn, skipn_skipn, nth_skipn_hd.
    rewrite <- Hk. f_equal. lia.
Qed.


(** ** UpdateTask and PUT /tasks/:id *)

Lemma UpdateTask_ok id title description position d c fs :
  hd false fs = false ->
  utils.UpdateTask id title description position (mkWorld d c fs)
  = (None, mkWorld (SQL.update_task title description position c id d) (c + 1) (tl fs)).
Proof.
  intros H. unfold utils.UpdateTask, bind, time_Now, db_Exec, bind. cbn [clock store faults].
  rewrite storage_fault_run, H. reflexivity.
Qed.

Lemma UpdateTask_fail id title description position d c fs :
  hd false fs = true ->
  utils.UpdateTask id title description position (mkWorld d c fs)
  = (Some ErrStorage, mkWorld d (c + 1) (tl fs)).
Proof.
  intros H. unfold utils.UpdateTask, bind, time_Now, db_Exec, bind. cbn [clock store faults].
  rewrite storage_fault_run, H. reflexivity.
Qed.

(** What the UPDATE statement does to the row at any index. *)
Lemma update_task_nth title description position now id d i t :
  nth_error (rows d) i = Some t ->
  nth_error (rows (SQL.update_task title description position now id d)) i
  = Some (if ID t =? id
          then mkTask (ID t) title description position (CreatedAt t) now
          else t).
Proof. intros H. cbn. rewrite nth_error_map, H. reflexivity. Qed.

(** With [id] a key, two indices that hold it are one index. *)
Lemma key_index (l : list Task) i j ti tj :
  NoDup (map ID l) ->
  nth_error l i = Some ti -> nth_error l j = Some tj ->
  ID ti = ID tj -> i = j.
Proof.
  intros Hnd Hi Hj Heq.
  assert (Hli : (i < length (map ID l))%nat).
  { rewrite length_map. apply nth_error_Some. congruence. }
  apply (proj1 (NoDup_nth_error (map ID l)) Hnd i j Hli).
  rewrite !nth_error_map, Hi, Hj. cbn. now rewrite Heq.
Qed.






(** ** ORDER BY position, LIMIT and OFFSET *)

Lemma insert_by_position_perm t l :
  Permutation (SQL.insert_by_position t l) (t :: l).
Proof.
  induction l as [|h r IH]; cbn; [reflexivity|].
  destruct (Position t <=? Position h); [reflexivity|].
  rewrite IH. apply perm_swap.
Qed.

Lemma order_by_position_perm l : Permutation (SQL.order_by_position l) l.
Proof.
  induction l as [|t l IH]; cbn; [reflexivity|].
  rewrite insert_by_position_perm. now constructor.
Qed.

Lemma insert_by_position_ascending t l :
  ascending l -> ascending (SQL.insert_by_position t l).
Proof.
  unfold ascending. induction l as [|h r IH]; intros Hs; cbn.
  - repeat constructor.
  - apply StronglySorted_inv in Hs as [Hr Hh].
    destruct (Position t <=? Position h) eqn:E.
    + apply Z.leb_le in E. constructor; [now constructor|].
      constructor; [exact E|].
      eapply Forall_impl; [|exact Hh]. cbn. intros a Ha. lia.
    + apply Z.leb_gt in E. constructor; [now apply IH|].
      eapply Permutation_Forall; [symmetry; apply insert_by_position_perm|].
      constructor; [lia | exact Hh].
Qed.

Lemma order_by_position_ascending l : ascending (SQL.order_by_position l).
Proof.
  induction l as [|t l IH]; cbn; [constructor|]. now apply insert_by_position_ascending.
Qed.

Lemma In_firstn {A} n : forall (l : list A) x, In x (firstn n l) -> In x l.
Proof.
  induction n as [|n IH]; intros l x Hx; [contradiction|].
  destruct l as [|a l]; [contradiction|].
  destruct Hx as [->|Hx]; [now left | right; now apply IH].
Qed.

Section Windows.

Variable R : Task -> Task -> Prop.

Lemma sorted_skipn n : forall l, StronglySorted R l -> StronglySorted R (skipn n l).
Proof.
  induction n as [|n IH]; intros l Hs; [exact Hs|].
  destruct l as [|a l]; [constructor|]. cbn. apply IH.
  now apply StronglySorted_inv in Hs.
Qed.

Lemma sorted_firstn n : forall l, StronglySorted R l -> StronglySorted R (firstn n l).
Proof.
  induction n as [|n IH]; intros l Hs; [constructor|].
  destruct l as [|a l]; [constructor|]. cbn.
  apply StronglySorted_inv in Hs as [Hl Ha]. constructor; [now apply IH|].
  apply Forall_forall. intros x Hx. apply (proj1 (Forall_forall _ _) Ha).
  now apply (In_firstn n l).
Qed.

Lemma sorted_limit_offset limit offset l :
  StronglySorted R l -> StronglySorted R (SQL.limit_offset limit offset l).
Proof.
  intros Hs. unfold SQL.limit_offset. destruct (limit <? 0).
  - now apply sorted_skipn.
  - now apply sorted_firstn, sorted_skipn.
Qed.

End Windows.

(** Where no two rows share a position, ascending is strictly ascending. *)
Lemma ascending_strict l :
  NoDup (map Position l) -> ascending l -> strictly_ascending l.
Proof.
  unfold ascending, strictly_ascending.
  induction l as [|a l IH]; intros Hnd Hs; [constructor|].
  cbn in Hnd. apply NoDup_cons_iff in Hnd as [Hnin Hnd].
  apply StronglySorted_inv in Hs as [Hl Ha].
  constructor; [now apply IH|].
  apply Forall_forall. intros x Hx.
  pose proof (proj1 (Forall_forall _ _) Ha x Hx) as Hle. cbn in Hle.
  assert (Position a <> Position x).
  { intros Heq. apply Hnin. rewrite Heq. now apply in_map. }
  lia.
Qed.

Lemma GetPaginatedTasks_ok offset limit d c fs :
  quiet 2 fs ->
  utils.GetPaginatedTasks offset limit (mkWorld d c fs)
  = (Ok (SQL.select_page limit offset d, SQL.count_all d), mkWorld d c (skipn 2 fs)).
Proof.
  intros Hq. apply quiet_S in Hq as [H0 Hq]. apply quiet_S in Hq as [H1 _].
  unfold utils.GetPaginatedTasks. unfold bind at 1. rewrite db_Query_ok by assumption.
  unfold bind. rewrite db_Query_ok by assumption.
  now rewrite <- tl_skipn, <- tl_skipn.
Qed.

(** ** AUTOINCREMENT and AddTask *)

Lemma max_rowid_app l t : SQL.max_rowid (l ++ [t]) = Z.max (SQL.max_rowid l) (ID t).
Proof.
  unfold SQL.max_rowid. induction l as [|a l IH]; cbn.
  - lia.
  - rewrite IH. lia.
Qed.

Lemma max_rowid_bound l t : In t l -> ID t <= SQL.max_rowid l.
Proof.
  unfold SQL.max_rowid. induction l as [|a l IH]; cbn; [contradiction|].
  intros [->|H]; [lia|]. specialize (IH H). lia.
Qed.

(** The id given to a row is larger than every id in the table. *)
Lemma next_rowid_fresh d t : In t (rows d) -> ID t < SQL.next_rowid d.
Proof. intros H. apply max_rowid_bound in H. unfold SQL.next_rowid. lia. Qed.

Lemma next_rowid_after_insert d title description position created updated :
  SQL.next_rowid
    (mkDB (rows d ++ [mkTask (SQL.next_rowid d) title description position created updated])
          (SQL.next_rowid d))
  = SQL.next_rowid d + 1.
Proof.
  unfold SQL.next_rowid at 1. cbn [rows seq]. rewrite max_rowid_app. cbn [ID].
  unfold SQL.next_rowid. lia.
Qed.

Lemma AddTask_ok title description position d c fs :
  hd false fs = false ->
  SQL.next_rowid d <= Go.max_int ->
  utils.AddTask title description position (mkWorld d c fs)
  = (Ok (mkTask (SQL.next_rowid d) title description position (c + 2) (c + 3)),
     mkWorld (mkDB (rows d ++ [mkTask (SQL.next_rowid d) title description position c (c + 1)])
                   (SQL.next_rowid d))
             (c + 4) (tl fs)).
Proof.
  intros H Hroom.
  unfold utils.AddTask, bind, time_Now, db_Exec, bind. cbn [clock store faults].
  rewrite storage_fault_run, H. cbn [get_store store]. unfold SQL.insert.
  replace (SQL.next_rowid d <=? Go.max_int) with true by (symmetry; now apply Z.leb_le).
  cbn -[SQL.next_rowid Z.add]. unfold ret.
  replace (c + 1 + 1 + 1 + 1) with (c + 4) by lia.
  replace (c + 1 + 1 + 1) with (c + 3) by lia.
  replace (c + 1 + 1) with (c + 2) by lia.
  reflexivity.
Qed.


(** ** POST /tasks, array branch *)

Lemma rows_insert_all items : forall c d,
  rows (insert_all items c d) = (rows d ++ stored_rows items (SQL.next_rowid d) c)%list.
Proof.
  induction items as [|t rest IH]; intros c d; cbn [insert_all stored_rows].
  - now rewrite app_nil_r.
  - rewrite IH. cbn [rows]. rewrite next_rowid_after_insert, <- app_assoc. reflexivity.
Qed.

Lemma next_rowid_insert_all items : forall c d,
  SQL.next_rowid (insert_all items c d) = SQL.next_rowid d + Z.of_nat (length items).
Proof.
  induction items as [|t rest IH]; intros c d; cbn [insert_all length].
  - lia.
  - rewrite IH, next_rowid_after_insert. lia.
Qed.

Lemma stored_rows_shape items : forall id c,
  length (stored_rows items id c) = length items /\
  map Title (stored_rows items id c) = map Title items /\
  map Description (stored_rows items id c) = map Description items /\
  map Position (stored_rows items id c) = map Position items.
Proof.
  induction items as [|t rest IH]; intros id c; cbn; [auto|].
  destruct (IH (id + 1) (c + 4)) as (H1 & H2 & H3 & H4).
  repeat split; congruence.
Qed.

Lemma returned_tasks_shape items : forall id c,
  length (returned_tasks items id c) = length items /\
  map ID (returned_tasks items id c) = map ID (stored_rows items id c) /\
  map Title (returned_tasks items id c) = map Title items /\
  map Description (returned_tasks items id c) = map Description items /\
  map Position (returned_tasks items id c) = map Position items.
Proof.
  induction items as [|t rest IH]; intros id c; cbn; [auto 6|].
  destruct (IH (id + 1) (c + 4)) as (H1 & H2 & H3 & H4 & H5).
  repeat split; congruence.
Qed.


Lemma task_ok_tests d t :
  task_ok d t ->
  (Title t =? "")%string || (Position t <=? 0) = false /\
  (0 <? SQL.count_position (Position t) d) = false.
Proof.
  intros (Ht & Hp & Hc). split.
  - apply orb_false_iff. split.
    + now apply String.eqb_neq.
    + apply Z.leb_gt. lia.
  - rewrite Hc. reflexivity.
Qed.

Lemma check_tasks_app pre : forall rest d c fs,
  Forall (task_ok d) pre ->
  quiet (length pre) fs ->
  check_tasks (pre ++ rest) (mkWorld d c fs)
  = check_tasks rest (mkWorld d c (skipn (length pre) fs)).
Proof.
  induction pre as [|t pre IH]; intros rest d c fs Hok Hq; [reflexivity|].
  inversion Hok as [|? ? Ht Hpre]; subst.
  apply quiet_S in Hq as [Hhd Hq]. apply task_ok_tests in Ht as [Ht1 Ht2].
  cbn [check_tasks length app]. rewrite Ht1.
  unfold bind at 1. rewrite CheckPositionExists_ok by assumption. rewrite Ht2.
  rewrite IH by assumption. now rewrite skipn_S_tl.
Qed.

Lemma check_tasks_pass items d c fs :
  Forall (task_ok d) items ->
  quiet (length items) fs ->
  check_tasks items (mkWorld d c fs) = (None, mkWorld d c (skipn (length items) fs)).
Proof.
  intros Hok Hq. rewrite <- (app_nil_r items) at 1.
  now rewrite check_tasks_app.
Qed.

Lemma add_tasks_pass items : forall createdTasks d c fs,
  quiet (length items) fs ->
  SQL.next_rowid d + Z.of_nat (length items) - 1 <= Go.max_int ->
  add_tasks items createdTasks (mkWorld d c fs)
  = (mkResponse StatusCreated
       (J_tasks (createdTasks ++ returned_tasks items (SQL.next_rowid d) c)),
     mkWorld (insert_all items c d) (c + 4 * Z.of_nat (length items))
             (skipn (length items) fs)).
Proof.
  induction items as [|t rest IH]; intros createdTasks d c fs Hq Hroom.
  - cbn. rewrite app_nil_r, Z.add_0_r. reflexivity.
  - apply quiet_S in Hq as [Hhd Hq]. cbn [length] in Hroom.
    cbn [add_tasks]. unfold bind at 1. rewrite AddTask_ok by (assumption || lia).
    rewrite IH; [|assumption|rewrite next_rowid_after_insert; lia].
    cbn [insert_all returned_tasks length]. rewrite next_rowid_after_insert.
    rewrite <- app_assoc, skipn_S_tl. cbn [app]. same_run.
Qed.


Lemma post_tasks_array_branch parse_time body items w :
  Unmarshal_Tasks parse_time body = Some items ->
  items <> [] ->
  post_tasks parse_time body w = post_tasks_array items w.
Proof.
  intros Hu Hne. unfold post_tasks. rewrite Hu.
  destruct items; [contradiction|]. reflexivity.
Qed.

(** ** GenerateDummyTasks *)

Lemma silent_tl fs : silent fs -> silent (tl fs).
Proof. intros H n. now apply (quiet_S n fs). Qed.

Lemma silent_hd fs : silent fs -> hd false fs = false.
Proof. intros H. now apply (quiet_S 0 fs). Qed.

Lemma silent_nil : silent [].
Proof. intros n. apply quiet_nil. Qed.

Lemma wrap_in_range z : Go.min_int <= z <= Go.max_int -> Go.wrap z = z.
Proof.
  unfold Go.min_int, Go.max_int, Go.wrap. intros H.
  rewrite Z.mod_small; lia.
Qed.

Lemma last_by_id_none l : SQL.last_by_id l = None -> l = [].
Proof.
  destruct l as [|a l]; [reflexivity|]. cbn.
  destruct (SQL.last_by_id l) as [m|]; [destruct (ID m <? ID a)|]; discriminate.
Qed.

Lemma last_by_id_greatest l t :
  SQL.last_by_id l = Some t -> In t l /\ forall u, In u l -> ID u <= ID t.
Proof.
  revert t. induction l as [|a l IH]; intros t H; [discriminate|].
  cbn in H. destruct (SQL.last_by_id l) as [m|] eqn:E.
  - destruct (IH m eq_refl) as [Hin Hmax].
    destruct (ID m <? ID a) eqn:C; inversion H; subst.
    + apply Z.ltb_lt in C. split; [now left|].
      intros u [->|Hu]; [lia|]. specialize (Hmax u Hu). lia.
    + apply Z.ltb_ge in C. split; [now right|].
      intros u [->|Hu]; [lia | now apply Hmax].
  - inversion H; subst. split; [now left|].
    intros u [->|Hu]; [lia|]. apply last_by_id_none in E. subst l. contradiction.
Qed.

Lemma run_deferred_nothing opened : forall d c fs,
  Forall holds_nothing opened ->
  silent fs ->
  exists fs', utils.run_deferred opened (mkWorld d c fs) = (tt, mkWorld d c fs') /\ silent fs'.
Proof.
  induction opened as [|tx rest IH]; intros d c fs Hid Hs.
  - exists fs. split; [reflexivity | assumption].
  - inversion Hid as [|? ? Htx Hrest]; subst.
    cbn [utils.run_deferred]. unfold bind at 1. unfold tx_Commit, bind at 1.
    rewrite storage_fault_run, (silent_hd fs Hs). cbn. rewrite Htx.
    apply IH; [assumption | now apply silent_tl].
Qed.

Lemma generate_loop_pass n : forall i startID startPosition opened d c fs,
  silent fs ->
  Forall holds_nothing opened ->
  SQL.next_rowid d + Z.of_nat n - 1 <= Go.max_int ->
  exists opened' d' fs',
    utils.generate_loop n i startID startPosition opened (mkWorld d c fs)
    = ((None, opened'), mkWorld d' (c + Z.of_nat n) fs') /\
    rows d' = (rows d ++ generated_rows n i startID startPosition (SQL.next_rowid d) c)%list /\
    silent fs' /\ Forall holds_nothing opened'.
Proof.
  induction n as [|n IH]; intros i startID startPosition opened d c fs Hs Hid Hroom.
  - exists opened, d, fs. cbn. rewrite Z.add_0_r, app_nil_r. auto.
  - cbn [utils.generate_loop]. unfold bind at 1. cbn [time_Now clock store faults].
    unfold bind at 1.
    assert (Hb : exists opened1 fs1,
               (if i mod utils.batchSize =? 0
                then r <- db_Begin ;;
                     ret (match r with Ok tx => Ok (tx :: opened) | Err e => Err e end)
                else ret (Ok opened)) (mkWorld d (c + 1) fs)
               = (Ok opened1, mkWorld d (c + 1) fs1) /\
               silent fs1 /\ Forall holds_nothing opened1).
    { destruct (i mod utils.batchSize =? 0).
      - unfold bind, db_Begin, bind. rewrite storage_fault_run, (silent_hd fs Hs).
        eexists. eexists. split; [reflexivity|]. split; [now apply silent_tl|].
        constructor; [intros x; reflexivity | assumption].
      - exists opened, fs. auto. }
    destruct Hb as (opened1 & fs1 & -> & Hs1 & Hid1).
    unfold bind at 1. unfold db_Exec, bind at 1.
    rewrite storage_fault_run, (silent_hd fs1 Hs1). cbn [get_store store bind].
    unfold SQL.insert.
    replace (SQL.next_rowid d <=? Go.max_int) with true by (symmetry; apply Z.leb_le; lia).
    cbn [put_store ret clock faults bind].
    destruct (IH (i + 1) startID startPosition opened1
                 (mkDB (rows d ++ [mkTask (SQL.next_rowid d)
                                          ("Task " ++ Go.itoa (Go.wrap (startID + i)))
                                          ("Description for task " ++ Go.itoa (Go.wrap (startID + i)))
                                          (Go.wrap (startPosition + i)) c c])
                       (SQL.next_rowid d))
                 (c + 1) (tl fs1))
      as (opened' & d' & fs' & Hrun & Hrows & Hs' & Hid').
    + now apply silent_tl.
    + assumption.
    + rewrite next_rowid_after_insert. lia.
    + exists opened', d', fs'. split; [|split; [|auto]].
      * unfold put_store, bind, ret. cbn [clock faults]. rewrite Hrun. same_run.
      * rewrite Hrows. cbn [rows generated_rows].
        rewrite next_rowid_after_insert, <- app_assoc. reflexivity.
Qed.

Lemma generated_rows_ids n : forall i startID startPosition id c,
  length (generated_rows n i startID startPosition id c) = n /\
  map ID (generated_rows n i startID startPosition id c) = consecutive id n.
Proof.
  induction n as [|n IH]; intros i startID startPosition id c; cbn; [auto|].
  destruct (IH (i + 1) startID startPosition (id + 1) (c + 1)) as [H1 H2].
  split; congruence.
Qed.

Lemma generated_rows_positions n : forall i startID startPosition id c,
  Go.min_int <= startPosition + i ->
  startPosition + i + Z.of_nat n - 1 <= Go.max_int ->
  map Position (generated_rows n i startID startPosition id c)
  = consecutive (startPosition + i) n.
Proof.
  induction n as [|n IH]; intros i startID startPosition id c Hlo Hhi; cbn; [reflexivity|].
  rewrite wrap_in_range by lia. f_equal.
  rewrite IH by lia. f_equal. lia.
Qed.

Lemma consecutive_increasing n : forall a,
  StronglySorted Z.lt (consecutive a n) /\ Forall (fun x => a <= x) (consecutive a n).
Proof.
  induction n as [|n IH]; intros a; cbn; [split; constructor|].
  destruct (IH (a + 1)) as [Hs Hf]. split.
  - constructor; [assumption|]. eapply Forall_impl; [|exact Hf]. cbn. intros. lia.
  - constructor; [lia|]. eapply Forall_impl; [|exact Hf]. cbn. intros. lia.
Qed.

Lemma GenerateDummyTasks_ok count d c fs :
  silent fs ->
  SQL.next_rowid d + Z.of_nat (Z.to_nat count) - 1 <= Go.max_int ->
  exists d' fs',
    utils.GenerateDummyTasks count (mkWorld d c fs)
    = (None, mkWorld d' (c + Z.of_nat (Z.to_nat count)) fs') /\
    rows d'
    = (rows d ++ generated_rows (Z.to_nat count) 0 (start_id d) (start_position d)
                                (SQL.next_rowid d) c)%list.
Proof.
  intros Hs Hroom.
  pose proof (silent_hd fs Hs) as H0.
  pose proof (silent_tl fs Hs) as Hs1. pose proof (silent_hd _ Hs1) as H1.
  pose proof (silent_tl _ Hs1) as Hs2. pose proof (silent_hd _ Hs2) as H2.
  pose proof (silent_tl _ Hs2) as Hs3. pose proof (silent_hd _ Hs3) as H3.
  pose proof (silent_tl _ Hs3) as Hs4. pose proof (silent_hd _ Hs4) as H4.
  pose proof (silent_tl _ Hs4) as Hs5.
  destruct (generate_loop_pass (Z.to_nat count) 0 (start_id d) (start_position d) []
              d c (tl (tl (tl (tl (tl fs))))) Hs5 (Forall_nil _) Hroom)
    as (opened & d' & fs1 & Hloop & Hrows & Hs6 & Hid).
  destruct (run_deferred_nothing opened d' (c + Z.of_nat (Z.to_nat count)) fs1 Hid Hs6)
    as (fs2 & Hdef & _).
  exists d', fs2. split; [|exact Hrows].
  unfold utils.GenerateDummyTasks. unfold bind at 1.
  unfold utils.GetLastTask. rewrite db_Query_ok by assumption.
  fold (start_id d). fold (start_position d).
  unfold db_Void. unfold bind at 1. unfold bind at 1.
  rewrite storage_fault_run, H1. cbn [ret].
  unfold bind at 1. unfold bind at 1. rewrite storage_fault_run, H2. cbn [ret].
  unfold bind at 1. unfold bind at 1. rewrite storage_fault_run, H3. cbn [ret].
  unfold bind at 1. unfold bind at 1. rewrite storage_fault_run, H4. cbn [ret].
  unfold bind at 1. rewrite Hloop. cbn [snd fst].
  unfold bind. rewrite Hdef. reflexivity.
Qed.

(** ** The invariant on the paths that keep it *)



Lemma DeleteTask_keeps_distinct id w :
  distinct_positions (store w) ->
  distinct_positions (store (snd (utils.DeleteTask id w))).
Proof.
  destruct w as [d c fs]. cbn [store]. intros Hd.
  unfold utils.DeleteTask, db_Exec, bind. rewrite storage_fault_run.
  destruct (hd false fs); cbn; [exact Hd|].
  unfold distinct_positions in *. cbn.
  induction (rows d) as [|a l IH]; cbn; [constructor|].
  cbn in Hd. apply NoDup_cons_iff in Hd as [Hnin Hd].
  destruct (negb (ID a =? id)); cbn; [|now apply IH].
  constructor; [|now apply IH].
  intros Hin. apply Hnin. apply in_map_iff in Hin as (x & Hx & Hf).
  apply in_map_iff. exists x. split; [exact Hx|]. now apply filter_In in Hf.
Qed.

(** ** Claims about PATCH /tasks/reorder *)

(** C2.  Reorder is atomic.  Take any batch that passes the loop before the
    transaction, and let the update of index [k] be the first storage call
    of the transaction to fail.  The request is answered 500 "Failed to
    update task with ID ..." and the committed table is the table from
    before the request: none of the [k] updates already executed inside the
    transaction is kept. *)
Theorem reorder_atomic body items k it w :
  bind_items body = Some items ->
  Forall (item_ok (store w)) items ->
  nth_error items k = Some it ->
  quiet (length items + 1 + k) (faults w) ->
  nth (length items + 1 + k) (faults w) false = true ->
  exists w', patch_reorder body w = (update_failed it, w') /\ store w' = store w.
Proof.
  destruct w as [d c fs]. cbn [store faults]. intros Hb Hok Hnth Hq Hk.
  eexists. split.
  - apply (patch_reorder_update_fails body items k it d c fs); assumption.
  - reflexivity.
Qed.

Lemma reorder_atomic_witness :
  let body := Some (JArr [JObj [("id", JInt 1); ("position", JInt 2)];
                          JObj [("id", JInt 2); ("position", JInt 1)]]) in
  let w := mkWorld two_tasks 100 [false; false; false; false; true] in
  exists w', patch_reorder body w = (update_failed (mkItem 2 1), w') /\ store w' = store w.
Proof.
  intros body w.
  apply (reorder_atomic body [mkItem 1 2; mkItem 2 1] 1%nat (mkItem 2 1) w).
  - reflexivity.
  - repeat constructor; cbn; lia.
  - reflexivity.
  - apply quiet_firstn. reflexivity.
  - reflexivity.
Defined.

(** C10.  An empty JSON array is a valid batch: when the two storage calls
    of the request (begin, commit) succeed it is answered 200 and the
    committed table is unchanged. *)
Theorem reorder_empty_batch w :
  quiet 2 (faults w) ->
  exists w',
    patch_reorder (Some (JArr [])) w
    = (mkResponse StatusOK (H_message "Tasks reordered successfully"), w')
    /\ store w' = store w.
Proof.
  destruct w as [d c fs]. cbn [faults store]. intros Hq.
  apply quiet_S in Hq as [H0 Hq]. apply quiet_S in Hq as [H1 _].
  unfold patch_reorder. cbn [bind_items Json.decode_slice Json.decode_elements].
  unfold bind at 1. cbn [check_items ret].
  unfold bind at 1. unfold db_Begin, bind at 1. rewrite storage_fault_run, H0. cbn [ret].
  unfold bind at 1. cbn [exec_items ret].
  unfold bind, tx_Commit, bind. rewrite storage_fault_run, H1. cbn.
  eexists. split; reflexivity.
Qed.

Lemma reorder_empty_batch_witness :
  exists w',
    patch_reorder (Some (JArr [])) (mkWorld two_tasks 100 [])
    = (mkResponse StatusOK (H_message "Tasks reordered successfully"), w')
    /\ store w' = two_tasks.
Proof.
  apply (reorder_empty_batch (mkWorld two_tasks 100 [])). apply quiet_nil.
Defined.





(** ** Claims about UpdateTask and PUT /tasks/:id *)

(** C9.  [UpdateTask] touches at most the one row whose id matches.  The
    table keeps its length and its rowid counter; every row keeps its place,
    its id and its created_at; a row whose id differs from [id] is
    unchanged; and, ids being a key, two rows that changed are the same
    row. *)
Theorem UpdateTask_frame id title description position w e w' :
  utils.UpdateTask id title description position w = (e, w') ->
  length (rows (store w')) = length (rows (store w)) /\
  seq (store w') = seq (store w) /\
  (forall i t, nth_error (rows (store w)) i = Some t ->
     exists t', nth_error (rows (store w')) i = Some t' /\
                ID t' = ID t /\ CreatedAt t' = CreatedAt t /\
                (ID t <> id -> t' = t)) /\
  (NoDup (map ID (rows (store w))) ->
   forall i j ti tj,
     nth_error (rows (store w)) i = Some ti ->
     nth_error (rows (store w)) j = Some tj ->
     nth_error (rows (store w')) i <> Some ti ->
     nth_error (rows (store w')) j <> Some tj ->
     i = j).
Proof.
  destruct w as [d c fs]. cbn [store]. intros Hrun.
  destruct (hd false fs) eqn:Hhd.
  - rewrite UpdateTask_fail in Hrun by assumption. inversion Hrun; subst. cbn [store].
    repeat split.
    + intros i t Hi. exists t. auto.
    + intros _ i j ti tj Hi _ Hi'. congruence.
  - rewrite UpdateTask_ok in Hrun by assumption. inversion Hrun; subst. cbn [store].
    repeat split.
    + cbn. apply length_map.
    + intros i t Hi. rewrite (update_task_nth _ _ _ _ _ _ _ _ Hi).
      eexists. split; [reflexivity|].
      destruct (ID t =? id) eqn:E; cbn; repeat split; try reflexivity.
      intros Hne. apply Z.eqb_eq in E. contradiction.
    + intros Hnd i j ti tj Hi Hj Hi' Hj'.
      rewrite (update_task_nth _ _ _ _ _ _ _ _ Hi) in Hi'.
      rewrite (update_task_nth _ _ _ _ _ _ _ _ Hj) in Hj'.
      destruct (ID ti =? id) eqn:Ei; [|congruence].
      destruct (ID tj =? id) eqn:Ej; [|congruence].
      apply Z.eqb_eq in Ei, Ej.
      apply (key_index (rows d) i j ti tj); congruence.
Qed.

Lemma UpdateTask_frame_witness :
  let run := utils.UpdateTask 2 "C" "c" 7 (mkWorld two_tasks 100 []) in
  length (rows (store (snd run))) = 2%nat /\
  nth_error (rows (store (snd run))) 0 = Some (mkTask 1 "A" "" 1 10 11) /\
  (forall i j ti tj,
     nth_error (rows two_tasks) i = Some ti ->
     nth_error (rows two_tasks) j = Some tj ->
     nth_error (rows (store (snd run))) i <> Some ti ->
     nth_error (rows (store (snd run))) j <> Some tj ->
     i = j).
Proof.
  intros run.
  destruct (UpdateTask_frame 2 "C" "c" 7 (mkWorld two_tasks 100 []) (fst run) (snd run))
    as (Hlen & _ & Hrow & Hone).
  - reflexivity.
  - split; [exact Hlen|]. split; [reflexivity|]. apply Hone.
    cbn. repeat constructor; cbn; intuition lia.
Defined.




(** ** Claims about listing *)

(** C5, as the query has it.  When its two storage calls succeed,
    [GetPaginatedTasks offset limit] returns, for every offset and limit, the
    window of the rows sorted by position: positions never decrease along
    the page, and they increase strictly whenever no two stored rows share a
    position.  The count returned with the page is the number of stored
    rows, whatever the window, and the table is not touched. *)
Theorem list_ascending_with_total offset limit w :
  quiet 2 (faults w) ->
  exists tasks w',
    utils.GetPaginatedTasks offset limit w
    = (Ok (tasks, Z.of_nat (length (rows (store w)))), w') /\
    store w' = store w /\
    ascending tasks /\
    (NoDup (map Position (rows (store w))) -> strictly_ascending tasks) /\
    exists sorted,
      Permutation sorted (rows (store w)) /\ ascending sorted /\
      tasks = SQL.limit_offset limit offset sorted.
Proof.
  destruct w as [d c fs]. cbn [store faults]. intros Hq.
  exists (SQL.select_page limit offset d). eexists.
  split; [now apply GetPaginatedTasks_ok|].
  split; [reflexivity|].
  pose proof (order_by_position_ascending (rows d)) as Hasc.
  pose proof (order_by_position_perm (rows d)) as Hperm.
  split; [|split].
  - now apply sorted_limit_offset.
  - intros Hnd. apply sorted_limit_offset. apply ascending_strict; [|exact Hasc].
    eapply Permutation_NoDup; [|exact Hnd].
    apply Permutation_map. now symmetry.
  - exists (SQL.order_by_position (rows d)). repeat split; assumption.
Qed.

Lemma list_ascending_with_total_witness :
  exists tasks w',
    utils.GetPaginatedTasks 1 1 (mkWorld two_tasks 100 []) = (Ok (tasks, 2), w') /\
    ascending tasks.
Proof.
  destruct (list_ascending_with_total 1 1 (mkWorld two_tasks 100 []) (quiet_nil 2))
    as (tasks & w' & Hrun & _ & Hasc & _).
  exists tasks, w'. split; [exact Hrun | exact Hasc].
Defined.

(** C5 as stated fails where two rows share a position.  The array request
    [twin_body] is answered 201 on the empty table and stores two tasks at
    position 1; the list then returns both, and positions 1, 1 do not
    increase strictly. *)
Lemma list_not_strictly_ascending :
  let w := snd (post_tasks no_time twin_body fresh_world) in
  status (fst (post_tasks no_time twin_body fresh_world)) = StatusCreated /\
  exists tasks w',
    utils.GetPaginatedTasks 0 10 w = (Ok (tasks, 2), w') /\
    map Position tasks = [1; 1] /\
    ~ strictly_ascending tasks.
Proof.
  cbv zeta. split; [reflexivity|].
  eexists. eexists. split; [reflexivity|]. split; [reflexivity|].
  intros Hs. apply StronglySorted_inv in Hs as [_ Hs].
  apply Forall_inv in Hs. cbn in Hs. lia.
Qed.


(** ** Claims about POST /tasks with an array *)

(** C8.  An array whose items all carry a title and a positive position that
    no stored row has, but two of which share a position, is accepted: when
    the storage calls succeed and rowids are left, the answer is 201 with
    one task per item, and one row per item is appended to the table, with
    the titles, descriptions and positions of the items in array order.
    The table then holds two rows at one position. *)
Theorem array_create_accepts_shared_position parse_time body items w :
  Unmarshal_Tasks parse_time body = Some items ->
  Forall (task_ok (store w)) items ->
  ~ NoDup (map Position items) ->
  quiet (length items + length items) (faults w) ->
  SQL.next_rowid (store w) + Z.of_nat (length items) - 1 <= Go.max_int ->
  exists created stored w',
    post_tasks parse_time body w = (mkResponse StatusCreated (J_tasks created), w') /\
    rows (store w') = (rows (store w) ++ stored)%list /\
    length stored = length items /\
    length created = length items /\
    map Title stored = map Title items /\
    map Description stored = map Description items /\
    map Position stored = map Position items /\
    map ID created = map ID stored /\
    map Position created = map Position items /\
    ~ NoDup (map Position (rows (store w'))).
Proof.
  destruct w as [d c fs]. cbn [store faults].
  intros Hu Hok Hdup Hq Hroom.
  assert (Hne : items <> []) by (intros ->; apply Hdup; constructor).
  assert (Hq1 : quiet (length items) fs) by (eapply quiet_weaken; [|exact Hq]; lia).
  assert (Hq2 : quiet (length items) (skipn (length items) fs)) by now apply quiet_skipn.
  destruct (stored_rows_shape items (SQL.next_rowid d) c) as (S1 & S2 & S3 & S4).
  destruct (returned_tasks_shape items (SQL.next_rowid d) c) as (R1 & R2 & _ & _ & R5).
  exists (returned_tasks items (SQL.next_rowid d) c), (stored_rows items (SQL.next_rowid d) c).
  eexists. split; [|split].
  - rewrite (post_tasks_array_branch parse_time body items) by assumption.
    unfold post_tasks_array, bind. rewrite check_tasks_pass by assumption.
    rewrite add_tasks_pass by assumption. reflexivity.
  - cbn [store]. apply rows_insert_all.
  - repeat split; try assumption.
    cbn [store]. rewrite rows_insert_all, map_app, S4.
    intros Hnd. apply Hdup. now apply NoDup_app_remove_l in Hnd.
Qed.

Lemma array_create_accepts_shared_position_witness :
  exists created stored w',
    post_tasks no_time twin_body fresh_world = (mkResponse StatusCreated (J_tasks created), w') /\
    rows (store w') = stored /\
    map Position stored = [1; 1].
Proof.
  destruct (array_create_accepts_shared_position no_time twin_body
              [mkTask 0 "A" "" 1 0 0; mkTask 0 "B" "" 1 0 0] fresh_world)
    as (created & stored & w' & Hrun & Hrows & _ & _ & _ & _ & Hpos & _).
  - reflexivity.
  - repeat constructor; cbn; (discriminate || lia).
  - cbn. intros Hnd. apply NoDup_cons_iff in Hnd as [Hnin _]. apply Hnin. now left.
  - apply quiet_nil.
  - cbn. unfold Go.max_int. lia.
  - exists created, stored, w'. repeat split; assumption.
Defined.





(** ** Claims about GenerateDummyTasks *)

(** C3, as the function has it.  For [count > 0], when no storage call fails
    and neither rowids nor positions leave the range of [int],
    [GenerateDummyTasks count] appends exactly [count] rows.  Their ids are
    consecutive from the AUTOINCREMENT counter on, hence increasing and
    above every stored id; the first is the largest stored id plus one
    whenever the counter has not run ahead of the table.  Their positions
    are consecutive, hence increasing, from one above the position of the
    row with the largest id (from 1 on the empty table). *)
Theorem generate_appends count w :
  0 < count ->
  silent (faults w) ->
  SQL.next_rowid (store w) + count - 1 <= Go.max_int ->
  Go.min_int <= last_position (store w) ->
  last_position (store w) + count <= Go.max_int ->
  exists news w',
    utils.GenerateDummyTasks count w = (None, w') /\
    rows (store w') = (rows (store w) ++ news)%list /\
    Z.of_nat (length news) = count /\
    map ID news = consecutive (SQL.next_rowid (store w)) (Z.to_nat count) /\
    map Position news = consecutive (last_position (store w) + 1) (Z.to_nat count) /\
    StronglySorted Z.lt (map ID news) /\
    StronglySorted Z.lt (map Position news) /\
    (forall t n, In t (rows (store w)) -> In n news -> ID t < ID n) /\
    (seq (store w) <= SQL.max_rowid (rows (store w)) ->
     SQL.next_rowid (store w) = SQL.max_rowid (rows (store w)) + 1).
Proof.
  destruct w as [d c fs]. cbn [store faults]. intros Hpos Hs Hroom Hlo Hhi.
  destruct (GenerateDummyTasks_ok count d c fs Hs) as (d' & fs' & Hrun & Hrows); [lia|].
  destruct (generated_rows_ids (Z.to_nat count) 0 (start_id d) (start_position d)
              (SQL.next_rowid d) c) as [Hlen Hids].
  assert (Hsp : start_position d = last_position d + 1).
  { unfold start_position, last_position in *.
    destruct (SQL.last_by_id (rows d)); [|reflexivity].
    apply wrap_in_range. lia. }
  assert (Hps : map Position (generated_rows (Z.to_nat count) 0 (start_id d) (start_position d)
                                            (SQL.next_rowid d) c)
                = consecutive (last_position d + 1) (Z.to_nat count)).
  { rewrite generated_rows_positions by lia. f_equal. lia. }
  remember (generated_rows (Z.to_nat count) 0 (start_id d) (start_position d)
                           (SQL.next_rowid d) c) as news eqn:Hnews.
  exists news. eexists. split; [exact Hrun|]. cbn [store].
  split; [exact Hrows|]. split; [lia|].
  split; [exact Hids|]. split; [exact Hps|].
  split; [rewrite Hids; apply consecutive_increasing|].
  split; [rewrite Hps; apply consecutive_increasing|].
  split.
  - intros t n Ht Hn. pose proof (next_rowid_fresh d t Ht) as Hfresh.
    assert (Hge : SQL.next_rowid d <= ID n).
    { destruct (consecutive_increasing (Z.to_nat count) (SQL.next_rowid d)) as [_ Hf].
      rewrite <- Hids in Hf. apply (proj1 (Forall_forall _ _) Hf). now apply in_map. }
    lia.
  - intros Hseq. unfold SQL.next_rowid. lia.
Qed.

Lemma generate_appends_witness :
  exists news w',
    utils.GenerateDummyTasks 3 (mkWorld two_tasks 100 []) = (None, w') /\
    rows (store w') = (rows two_tasks ++ news)%list /\
    map ID news = [3; 4; 5] /\
    map Position news = [3; 4; 5].
Proof.
  destruct (generate_appends 3 (mkWorld two_tasks 100 []))
    as (news & w' & Hrun & Hrows & _ & Hids & Hps & _).
  - lia.
  - apply silent_nil.
  - cbn. unfold Go.max_int. lia.
  - cbn. unfold Go.min_int. lia.
  - cbn. unfold Go.max_int. lia.
  - exists news, w'. repeat split; assumption.
Defined.

(** C3 as stated fails on both counts.  After three creates at positions 5,
    1 and 3 and the deletion of the third task, the table holds ids 1 and 2
    and positions 5 and 1.  Generating one task stores it with id 4, not 3,
    and at position 2, not 6. *)
Lemma generate_not_from_maxima :
  let w := three_created_one_deleted in
  map ID (rows (store w)) = [1; 2] /\
  SQL.max_rowid (rows (store w)) = 2 /\
  max_position (store w) = 5 /\
  let run := utils.GenerateDummyTasks 1 w in
  fst run = None /\
  map ID (rows (store (snd run))) = [1; 2; 4] /\
  map Position (rows (store (snd run))) = [5; 1; 2].
Proof.
  cbv zeta. repeat split; vm_compute; reflexivity.
Qed.

(** ** Claims about the invariant *)

(** C1: what the handlers do to the invariant.  After two creates at
    positions 1 and 2 the positions are distinct, and a create at position 1
    is refused with 400.  A PUT on task 2 with position 1 is answered 200
    and leaves two rows at position 1; so does a reorder of task 2 to
    position 1. *)
Theorem put_task_duplicates_position :
  let w := two_created in
  let create := post_tasks no_time (single_body "C" 1) w in
  let update := put_task "2" (single_body "B" 1) w in
  let reorder := patch_reorder (Some (JArr [JObj [("id", JInt 2); ("position", JInt 1)]])) w in
  map ID (rows (store w)) = [1; 2] /\
  map Position (rows (store w)) = [1; 2] /\
  distinct_positions (store w) /\
  fst create = mkResponse StatusBadRequest (H_error "Position 1 already exists") /\
  store (snd create) = store w /\
  fst update = mkResponse StatusOK (H_message "Task updated successfully") /\
  map Position (rows (store (snd update))) = [1; 1] /\
  ~ distinct_positions (store (snd update)) /\
  fst reorder = mkResponse StatusOK (H_message "Tasks reordered successfully") /\
  ~ distinct_positions (store (snd reorder)).
Proof.
  cbv zeta.
  assert (Hdup : forall d, map Position (rows d) = [1; 1] -> ~ distinct_positions d).
  { intros d Hd Hnd. unfold distinct_positions in Hnd. rewrite Hd in Hnd.
    apply NoDup_cons_iff in Hnd as [Hnin _]. apply Hnin. now left. }
  repeat match goal with |- _ /\ _ => split end; try reflexivity.
  - unfold distinct_positions. cbn. repeat constructor; cbn; intuition lia.
  - apply Hdup. reflexivity.
  - apply Hdup. reflexivity.
Qed.


(** * Further properties *)

(** ** Computations that move the table along a preorder *)

Section Keeps.

Variable R : database -> database -> Prop.
Hypothesis R_refl : forall d, R d d.
Hypothesis R_trans : forall a b c, R a b -> R b c -> R a c.

Lemma keeps_ret {A} (Q : A -> Prop) a : Q a -> keeps R Q (ret a).
Proof. intros H w. split; [exact H | apply R_refl]. Qed.

Lemma keeps_bind {A B} (P : A -> Prop) (Q : B -> Prop) (m : M A) (k : A -> M B) :
  keeps R P m -> (forall a, P a -> keeps R Q (k a)) -> keeps R Q (bind m k).
Proof.
  intros Hm Hk w. unfold bind. destruct (Hm w) as [Hp Hr].
  destruct (m w) as [a w1]. cbn [fst snd] in *.
  destruct (Hk a Hp w1) as [Hq Hr']. split; [exact Hq|].
  eapply R_trans; eassumption.
Qed.

Lemma keeps_weaken {A} (P Q : A -> Prop) (m : M A) :
  keeps R P m -> (forall a, P a -> Q a) -> keeps R Q m.
Proof. intros Hm Himp w. destruct (Hm w). auto. Qed.

Lemma keeps_any {A} (P : A -> Prop) (m : M A) :
  keeps R P m -> keeps R (fun _ => True) m.
Proof. intros Hm. apply (keeps_weaken P); auto. Qed.

Lemma keeps_time_Now : keeps R (fun _ => True) time_Now.
Proof. intros w. split; [exact I | apply R_refl]. Qed.

Lemma keeps_storage_fault : keeps R (fun _ => True) storage_fault.
Proof. intros [d c fs]. rewrite storage_fault_run. split; [exact I | apply R_refl]. Qed.

Lemma keeps_db_Query {A} (q : database -> A) : keeps R (fun _ => True) (db_Query q).
Proof.
  intros [d c fs]. unfold db_Query, bind. rewrite storage_fault_run.
  destruct (hd false fs); (split; [exact I | apply R_refl]).
Qed.

Lemma keeps_db_Void : keeps R (fun _ => True) db_Void.
Proof.
  intros [d c fs]. unfold db_Void, bind. rewrite storage_fault_run.
  split; [exact I | apply R_refl].
Qed.

Lemma keeps_db_Exec {A} (stmt : database -> result (A * database)) :
  (forall d a d', stmt d = Ok (a, d') -> R d d') ->
  keeps R (fun _ => True) (db_Exec stmt).
Proof.
  intros Hs [d c fs]. unfold db_Exec, bind. rewrite storage_fault_run.
  destruct (hd false fs); cbn [get_store store]; [split; [exact I | apply R_refl]|].
  destruct (stmt d) as [[a d']|e] eqn:E; cbn; (split; [exact I|]).
  - now apply (Hs d a).
  - apply R_refl.
Qed.

Lemma keeps_db_Begin :
  keeps R (fun r => match r with Ok tx => within R tx | Err _ => True end) db_Begin.
Proof.
  intros [d c fs]. unfold db_Begin, bind. rewrite storage_fault_run.
  destruct (hd false fs); cbn; (split; [|apply R_refl]); [exact I|].
  intros d0. apply R_refl.
Qed.

Lemma keeps_tx_Exec stmt tx :
  within R tx -> (forall d, R d (stmt d)) ->
  keeps R (fun r => match r with Ok tx' => within R tx' | Err _ => True end) (tx_Exec stmt tx).
Proof.
  intros Htx Hs [d c fs]. unfold tx_Exec, bind. rewrite storage_fault_run.
  destruct (hd false fs); cbn; (split; [|apply R_refl]); [exact I|].
  intros d0. eapply R_trans; [apply Htx | apply Hs].
Qed.

Lemma keeps_tx_Commit tx : within R tx -> keeps R (fun _ => True) (tx_Commit tx).
Proof.
  intros Htx [d c fs]. unfold tx_Commit, bind. rewrite storage_fault_run.
  destruct (hd false fs); cbn; (split; [exact I|]); [apply R_refl | apply Htx].
Qed.

Lemma keeps_tx_Rollback tx : keeps R (fun _ => True) (tx_Rollback tx).
Proof.
  intros [d c fs]. unfold tx_Rollback, bind. rewrite storage_fault_run.
  split; [exact I | apply R_refl].
Qed.

(** *** The functions that only read *)

Lemma keeps_CheckTaskExists id : keeps R (fun _ => True) (utils.CheckTaskExists id).
Proof.
  unfold utils.CheckTaskExists. eapply keeps_bind; [apply keeps_db_Query|].
  intros a _. now apply keeps_ret.
Qed.

Lemma keeps_CheckPositionExists p : keeps R (fun _ => True) (utils.CheckPositionExists p).
Proof.
  unfold utils.CheckPositionExists. eapply keeps_bind; [apply keeps_db_Query|].
  intros a _. now apply keeps_ret.
Qed.

Lemma keeps_GetPaginatedTasks offset limit :
  keeps R (fun _ => True) (utils.GetPaginatedTasks offset limit).
Proof.
  unfold utils.GetPaginatedTasks. eapply keeps_bind; [apply keeps_db_Query|].
  intros [total|e] _; [|now apply keeps_ret].
  eapply keeps_bind; [apply keeps_db_Query|].
  intros [l|e] _; now apply keeps_ret.
Qed.

Lemma keeps_get_tasks pageQuery limitQuery :
  keeps R (fun _ => True) (get_tasks pageQuery limitQuery).
Proof.
  unfold get_tasks.
  destruct (Go.Atoi (DefaultQuery pageQuery "1")) as [p|]; [|now apply keeps_ret].
  destruct (p <=? 0); [now apply keeps_ret|].
  destruct (Go.Atoi (DefaultQuery limitQuery "10")) as [l|]; [|now apply keeps_ret].
  destruct (l <=? 0); [now apply keeps_ret|].
  eapply keeps_bind; [apply keeps_GetPaginatedTasks|].
  intros [[ts total]|e] _; now apply keeps_ret.
Qed.

(** *** The functions that write, each under what its statement needs *)

Hypothesis R_delete : forall id d, R d (SQL.delete id d).
Hypothesis R_delete_all : forall d, R d (SQL.delete_all d).

Lemma keeps_DeleteTask id : keeps R (fun _ => True) (utils.DeleteTask id).
Proof.
  unfold utils.DeleteTask. eapply keeps_bind.
  - apply keeps_db_Exec. intros d a d' H. inversion H; subst. apply R_delete.
  - intros a _. now apply keeps_ret.
Qed.

Lemma keeps_DeleteAllTasks : keeps R (fun _ => True) utils.DeleteAllTasks.
Proof.
  unfold utils.DeleteAllTasks. eapply keeps_bind.
  - apply keeps_db_Exec. intros d a d' H. inversion H; subst. apply R_delete_all.
  - intros a _. now apply keeps_ret.
Qed.

Lemma keeps_delete_task idParam : keeps R (fun _ => True) (delete_task idParam).
Proof.
  unfold delete_task, JSON.
  destruct (Go.Atoi idParam) as [id|]; [|now apply keeps_ret].
  destruct (id <=? 0); [now apply keeps_ret|].
  eapply keeps_bind; [apply keeps_CheckTaskExists|].
  intros [[]|e] _; try now apply keeps_ret.
  eapply keeps_bind; [apply keeps_DeleteTask|].
  intros [e|] _; now apply keeps_ret.
Qed.

Lemma keeps_delete_tasks : keeps R (fun _ => True) delete_tasks.
Proof.
  unfold delete_tasks, JSON. eapply keeps_bind; [apply keeps_DeleteAllTasks|].
  intros [e|] _; now apply keeps_ret.
Qed.

End Keeps.

(** ** The primary key under every statement *)

Lemma grows_refl d : grows d d.
Proof.
  intros Hk. split; [exact Hk|]. split; [lia|].
  intros t' Ht. left. exists t'. auto.
Qed.

Lemma grows_trans a b c : grows a b -> grows b c -> grows a c.
Proof.
  intros Hab Hbc Ha. destruct (Hab Ha) as (Hb & Hs1 & Hr1).
  destruct (Hbc Hb) as (Hc & Hs2 & Hr2).
  split; [exact Hc|]. split; [lia|].
  intros t'' Ht''. destruct (Hr2 t'' Ht'') as [(t' & Ht' & Hid & Hcr)|Hnew]; [|right; lia].
  destruct (Hr1 t' Ht') as [(t & Ht & Hid' & Hcr')|Hnew]; [|right; lia].
  left. exists t. repeat split; congruence.
Qed.

(** A statement that rewrites rows in place, keeping ids and creation
    times. *)
Lemma grows_rewrite (f : Task -> Task) d :
  (forall t, ID (f t) = ID t /\ CreatedAt (f t) = CreatedAt t) ->
  grows d (mkDB (map f (rows d)) (seq d)).
Proof.
  intros Hf (Hnd & Hall & Hseq).
  assert (Hids : map ID (map f (rows d)) = map ID (rows d)).
  { rewrite map_map. apply map_ext. intros t. apply Hf. }
  split; [|split; [cbn; lia|]].
  - unfold keyed. cbn [rows seq]. rewrite Hids. repeat split; try assumption.
    apply Forall_forall. intros t' Ht'. apply in_map_iff in Ht' as (t & <- & Ht).
    destruct (Hf t) as [-> _]. now apply (proj1 (Forall_forall _ _) Hall).
  - cbn [rows]. intros t' Ht'. apply in_map_iff in Ht' as (t & <- & Ht).
    left. exists t. destruct (Hf t) as [H1 H2]. auto.
Qed.

Lemma grows_update_task title description position updated id d :
  grows d (SQL.update_task title description position updated id d).
Proof.
  apply (grows_rewrite (fun t => if ID t =? id
                                 then mkTask (ID t) title description position (CreatedAt t) updated
                                 else t)).
  intros t. destruct (ID t =? id); auto.
Qed.

Lemma grows_update_position position updated id d :
  grows d (SQL.update_position position updated id d).
Proof.
  apply (grows_rewrite (fun t => if ID t =? id
                                 then mkTask (ID t) (Title t) (Description t) position
                                             (CreatedAt t) updated
                                 else t)).
  intros t. destruct (ID t =? id); auto.
Qed.

Lemma NoDup_map_filter {A B} (f : A -> B) (p : A -> bool) l :
  NoDup (map f l) -> NoDup (map f (filter p l)).
Proof.
  induction l as [|a l IH]; cbn; intros H; [constructor|].
  apply NoDup_cons_iff in H as [Hnin H].
  destruct (p a); cbn; [|now apply IH].
  constructor; [|now apply IH].
  intros Hin. apply Hnin. apply in_map_iff in Hin as (x & Hx & Hf).
  apply in_map_iff. exists x. split; [exact Hx|]. now apply filter_In in Hf.
Qed.

Lemma grows_delete id d : grows d (SQL.delete id d).
Proof.
  intros (Hnd & Hall & Hseq). split; [|split; [cbn; lia|]].
  - unfold keyed. cbn [SQL.delete rows seq]. repeat split; try assumption.
    + now apply NoDup_map_filter.
    + apply Forall_forall. intros t Ht. apply filter_In in Ht as [Ht _].
      now apply (proj1 (Forall_forall _ _) Hall).
  - cbn [SQL.delete rows]. intros t Ht. apply filter_In in Ht as [Ht _].
    left. exists t. auto.
Qed.

Lemma grows_delete_all d : grows d (SQL.delete_all d).
Proof.
  intros (Hnd & Hall & Hseq). split; [|split; [cbn; lia|]].
  - unfold keyed. cbn. repeat split; [constructor | constructor | assumption].
  - intros t [].
Qed.

Lemma max_rowid_nonneg l : 0 <= SQL.max_rowid l.
Proof. unfold SQL.max_rowid. induction l as [|a l IH]; cbn; lia. Qed.

Lemma grows_insert title description position created updated d id d' :
  SQL.insert title description position created updated d = Ok (id, d') ->
  grows d d'.
Proof.
  unfold SQL.insert. destruct (SQL.next_rowid d <=? Go.max_int); [|discriminate].
  intros H. inversion H; subst. clear H. intros (Hnd & Hall & Hseq).
  assert (Hnext : seq d < SQL.next_rowid d) by (unfold SQL.next_rowid; lia).
  split; [|split; [cbn; lia|]].
  - unfold keyed. cbn [rows seq]. rewrite map_app. cbn [map ID]. repeat split.
    + apply NoDup_app; [exact Hnd | repeat constructor; intros [] |].
      intros x Hx [<-|[]]. apply in_map_iff in Hx as (t & Hid & Ht).
      pose proof (proj1 (Forall_forall _ _) Hall t Ht) as Hb. cbn in Hb. lia.
    + apply Forall_app. split.
      * eapply Forall_impl; [|exact Hall]. cbn. intros t Ht. lia.
      * repeat constructor; cbn; lia.
    + lia.
  - cbn [rows]. intros t' Ht'. apply in_app_or in Ht' as [Ht'|[<-|[]]].
    + left. exists t'. auto.
    + right. exact Hnext.
Qed.

Lemma grows_ret {A} (Q : A -> Prop) a : Q a -> keeps grows Q (ret a).
Proof. apply (keeps_ret grows grows_refl). Qed.

Lemma grows_bind {A B} (P : A -> Prop) (Q : B -> Prop) (m : M A) (k : A -> M B) :
  keeps grows P m -> (forall a, P a -> keeps grows Q (k a)) -> keeps grows Q (bind m k).
Proof. apply (keeps_bind grows grows_trans). Qed.

(** ** The primary key under every function of utils and every handler *)

Ltac grows_step :=
  first [ apply grows_ret; exact I
        | eapply grows_bind;
          [ first [ apply (keeps_time_Now grows grows_refl)
                  | apply (keeps_db_Query grows grows_refl)
                  | apply (keeps_db_Void grows grows_refl)
                  | apply (keeps_CheckTaskExists grows grows_refl grows_trans)
                  | apply (keeps_CheckPositionExists grows grows_refl grows_trans) ]
          | intros ? _ ] ].

Lemma grows_AddTask title description position :
  keeps grows (fun _ => True) (utils.AddTask title description position).
Proof.
  unfold utils.AddTask. do 2 grows_step.
  eapply grows_bind.
  - apply (keeps_db_Exec grows grows_refl). intros d id d' H. now apply grows_insert in H.
  - intros [id|e] _; repeat grows_step.
Qed.

Lemma grows_UpdateTask id title description position :
  keeps grows (fun _ => True) (utils.UpdateTask id title description position).
Proof.
  unfold utils.UpdateTask. grows_step.
  eapply grows_bind.
  - apply (keeps_db_Exec grows grows_refl). intros d x d' H. inversion H; subst.
    apply grows_update_task.
  - intros r _. grows_step.
Qed.

Lemma grows_check_tasks l : keeps grows (fun _ => True) (check_tasks l).
Proof.
  induction l as [|t rest IH]; cbn [check_tasks]; [grows_step|].
  destruct ((Title t =? "")%string || (Position t <=? 0)); [grows_step|].
  grows_step. destruct a as [[]|e]; try grows_step. exact IH.
Qed.

Lemma grows_add_tasks l : forall createdTasks,
  keeps grows (fun _ => True) (add_tasks l createdTasks).
Proof.
  induction l as [|t rest IH]; intros createdTasks; cbn [add_tasks]; unfold JSON;
    [grows_step|].
  eapply grows_bind; [apply grows_AddTask|].
  intros [newTask|e] _; [apply IH | grows_step].
Qed.

Lemma grows_add_each l : forall createdTasks,
  keeps grows (fun _ => True) (utils.add_each l createdTasks).
Proof.
  induction l as [|t rest IH]; intros createdTasks; cbn [utils.add_each]; [grows_step|].
  eapply grows_bind; [apply grows_AddTask|].
  intros [newTask|e] _; [apply IH | grows_step].
Qed.

Lemma grows_post_tasks_single t : keeps grows (fun _ => True) (post_tasks_single t).
Proof.
  unfold post_tasks_single, JSON.
  destruct ((Title t =? "")%string || (Position t <=? 0)); [grows_step|].
  grows_step. destruct a as [[]|e]; try grows_step.
  eapply grows_bind; [apply grows_AddTask|].
  intros [task|e] _; grows_step.
Qed.

Lemma grows_post_tasks parse_time body :
  keeps grows (fun _ => True) (post_tasks parse_time body).
Proof.
  assert (Hobj : keeps grows (fun _ => True) (post_tasks_object parse_time body)).
  { unfold post_tasks_object, JSON.
    destruct (Unmarshal_Task parse_time body); [apply grows_post_tasks_single | grows_step]. }
  unfold post_tasks. destruct (Unmarshal_Tasks parse_time body) as [l|]; [|exact Hobj].
  destruct (0 <? length l)%nat; [|exact Hobj].
  unfold post_tasks_array. eapply grows_bind; [apply grows_check_tasks|].
  intros [resp|] _; [grows_step | apply grows_add_tasks].
Qed.

Lemma grows_put_task idParam body : keeps grows (fun _ => True) (put_task idParam body).
Proof.
  unfold put_task, JSON.
  destruct (Go.Atoi idParam) as [id|]; [|grows_step].
  destruct (id <=? 0); [grows_step|].
  grows_step. destruct a as [[]|e]; try grows_step.
  destruct (bind_input body) as [input|]; [|grows_step].
  eapply grows_bind; [apply grows_UpdateTask|].
  intros [e|] _; grows_step.
Qed.

Lemma grows_check_items l : keeps grows (fun _ => True) (check_items l).
Proof.
  induction l as [|it rest IH]; cbn [check_items]; [grows_step|].
  destruct ((item_ID it =? 0) || (item_Position it <=? 0)); [grows_step|].
  grows_step. destruct a as [[]|e]; try grows_step. exact IH.
Qed.

Lemma grows_exec_items l : forall tx,
  within grows tx ->
  keeps grows (fun x => match x with inr tx' => within grows tx' | inl _ => True end)
        (exec_items l tx).
Proof.
  induction l as [|it rest IH]; intros tx Htx; cbn [exec_items].
  - now apply grows_ret.
  - grows_step. eapply grows_bind.
    + apply (keeps_tx_Exec grows grows_refl grows_trans); [exact Htx|].
      intros d. apply grows_update_position.
    + intros [tx'|e] H; [now apply IH | now apply grows_ret].
Qed.

Lemma grows_patch_reorder body : keeps grows (fun _ => True) (patch_reorder body).
Proof.
  unfold patch_reorder, JSON.
  destruct (bind_items body) as [items|]; [|grows_step].
  eapply grows_bind; [apply grows_check_items|].
  intros [resp|] _; [grows_step|].
  eapply grows_bind; [apply (keeps_db_Begin grows grows_refl)|].
  intros [tx|e] Htx; [|grows_step].
  eapply grows_bind; [now apply grows_exec_items|].
  intros [resp|tx'] Htx'.
  - eapply grows_bind; [apply (keeps_tx_Rollback grows grows_refl)|].
    intros ? _. grows_step.
  - eapply grows_bind; [now apply (keeps_tx_Commit grows grows_refl)|].
    intros [e|] _; grows_step.
Qed.

Lemma grows_reorder_each l : forall tx,
  within grows tx ->
  keeps grows (fun x => match x with inr tx' => within grows tx' | inl _ => True end)
        (utils.reorder_each l tx).
Proof.
  induction l as [|t rest IH]; intros tx Htx; cbn [utils.reorder_each].
  - now apply grows_ret.
  - destruct ((ID t =? 0) || (Position t <=? 0)).
    { eapply grows_bind; [apply (keeps_tx_Rollback grows grows_refl)|].
      intros ? _. now apply grows_ret. }
    grows_step. eapply grows_bind.
    + apply (keeps_tx_Exec grows grows_refl grows_trans); [exact Htx|].
      intros d. apply grows_update_position.
    + intros [tx'|e] H; [now apply IH|].
      eapply grows_bind; [apply (keeps_tx_Rollback grows grows_refl)|].
      intros ? _. now apply grows_ret.
Qed.

Lemma grows_ReorderTasks l : keeps grows (fun _ => True) (utils.ReorderTasks l).
Proof.
  unfold utils.ReorderTasks.
  eapply grows_bind; [apply (keeps_db_Begin grows grows_refl)|].
  intros [tx|e] Htx; [|grows_step].
  eapply grows_bind; [now apply grows_reorder_each|].
  intros [e|tx'] Htx'; [grows_step|].
  eapply grows_bind; [now apply (keeps_tx_Commit grows grows_refl)|].
  intros e _. grows_step.
Qed.

Lemma holds_nothing_within tx : holds_nothing tx -> within grows tx.
Proof. intros H d. rewrite H. apply grows_refl. Qed.

Lemma grows_generate_loop n : forall i startID startPosition opened,
  Forall (within grows) opened ->
  keeps grows (fun out => Forall (within grows) (snd out))
        (utils.generate_loop n i startID startPosition opened).
Proof.
  induction n as [|n IH]; intros i startID startPosition opened Hop;
    cbn [utils.generate_loop].
  - now apply grows_ret.
  - grows_step.
    eapply (grows_bind (fun b => match b with
                                 | Ok opened' => Forall (within grows) opened'
                                 | Err _ => True
                                 end)).
    + destruct (i mod utils.batchSize =? 0); [|now apply grows_ret].
      eapply grows_bind; [apply (keeps_db_Begin grows grows_refl)|].
      intros [tx|e] Htx; apply grows_ret; [now constructor | exact I].
    + intros [opened'|e] Hop'; [|now apply grows_ret].
      eapply grows_bind.
      * apply (keeps_db_Exec grows grows_refl). intros d id d' H.
        now apply grows_insert in H.
      * intros [id|e] _; [now apply IH | now apply grows_ret].
Qed.

Lemma grows_run_deferred opened :
  Forall (within grows) opened -> keeps grows (fun _ => True) (utils.run_deferred opened).
Proof.
  induction opened as [|tx rest IH]; intros Hop; cbn [utils.run_deferred]; [grows_step|].
  inversion Hop; subst.
  eapply grows_bind; [now apply (keeps_tx_Commit grows grows_refl)|].
  intros ? _. now apply IH.
Qed.

Lemma grows_GenerateDummyTasks count : keeps grows (fun _ => True) (utils.GenerateDummyTasks count).
Proof.
  unfold utils.GenerateDummyTasks, utils.GetLastTask.
  grows_step. destruct a as [lastTask|e]; [|grows_step].
  grows_step. destruct a as [e|]; [grows_step|].
  grows_step. destruct a as [e|]; [grows_step|].
  grows_step. destruct a as [e|]; [grows_step|].
  grows_step. destruct a as [e|]; [grows_step|].
  eapply grows_bind; [apply grows_generate_loop; constructor|].
  intros out Hout.
  eapply grows_bind; [now apply grows_run_deferred|].
  intros ? _. grows_step.
Qed.

Lemma grows_post_generate countQuery : keeps grows (fun _ => True) (post_generate countQuery).
Proof.
  unfold post_generate, JSON.
  destruct (Query countQuery =? "")%string; [grows_step|].
  destruct (Go.Atoi (Query countQuery)) as [count|]; [|grows_step].
  destruct (count <=? 0); [grows_step|].
  eapply grows_bind; [apply grows_GenerateDummyTasks|].
  intros [e|] _; grows_step.
Qed.

Lemma grows_serve parse_time r : keeps grows (fun _ => True) (serve parse_time r).
Proof.
  destruct r; cbn [serve].
  - apply (keeps_get_tasks grows grows_refl grows_trans).
  - eapply grows_bind; [apply grows_post_tasks | intros ? _; grows_step].
  - eapply grows_bind; [apply grows_post_generate | intros ? _; grows_step].
  - eapply grows_bind; [apply grows_put_task | intros ? _; grows_step].
  - eapply grows_bind;
      [apply (keeps_delete_task grows grows_refl grows_trans grows_delete)
      | intros ? _; grows_step].
  - eapply grows_bind;
      [apply (keeps_delete_tasks grows grows_refl grows_trans grows_delete_all)
      | intros ? _; grows_step].
  - eapply grows_bind; [apply grows_patch_reorder | intros ? _; grows_step].
Qed.

Lemma grows_serve_all parse_time rs : forall w,
  grows (store w) (store (serve_all parse_time rs w)).
Proof.
  induction rs as [|r rest IH]; intros w; cbn [serve_all]; [apply grows_refl|].
  eapply grows_trans; [apply (grows_serve parse_time r w) | apply IH].
Qed.

(** ** Positions under the requests that work one task at a time *)





(** ** What every sequence of requests keeps *)

(** X1.  Whatever requests are served and whatever storage calls fail, ids
    stay a key of the table: pairwise distinct, positive, and not beyond the
    rowid counter. *)
Theorem serve_all_keeps_primary_key parse_time rs w :
  keyed (store w) -> keyed (store (serve_all parse_time rs w)).
Proof. intros Hk. now apply (grows_serve_all parse_time rs w). Qed.

Lemma serve_all_keeps_primary_key_witness :
  let rs := [POST_tasks twin_body; POST_tasks_generate (Some "2");
             DELETE_tasks_id "1"; PUT_tasks_id "3" (single_body "Z" 1);
             PATCH_tasks_reorder (Some (JArr [JObj [("id", JInt 2); ("position", JInt 9)]]))] in
  map ID (rows (store (serve_all no_time rs fresh_world))) = [2; 3; 4] /\
  keyed (store (serve_all no_time rs fresh_world)).
Proof.
  intros rs. split; [vm_compute; reflexivity|].
  apply (serve_all_keeps_primary_key no_time rs fresh_world).
  unfold keyed. cbn. repeat split; try constructor. lia.
Defined.

(** X2.  No sequence of requests changes the id or the creation time of a
    stored task, and none reuses an id: a task in the table afterwards
    either continues a task that was there before, with the same id and
    created_at, or has an id above the rowid counter from before, hence
    above every id stored before, deleted or not.  The counter never goes
    back. *)
Theorem serve_all_never_reuses_ids parse_time rs w :
  keyed (store w) ->
  seq (store w) <= seq (store (serve_all parse_time rs w)) /\
  forall t', In t' (rows (store (serve_all parse_time rs w))) ->
    (exists t, In t (rows (store w)) /\ ID t = ID t' /\ CreatedAt t = CreatedAt t') \/
    (seq (store w) < ID t' /\ forall t, In t (rows (store w)) -> ID t < ID t').
Proof.
  intros Hk. destruct (grows_serve_all parse_time rs w Hk) as (_ & Hseq & Hrows).
  split; [exact Hseq|]. intros t' Ht'.
  destruct (Hrows t' Ht') as [H|H]; [now left|]. right. split; [exact H|].
  intros t Ht. destruct Hk as (_ & Hall & _).
  pose proof (proj1 (Forall_forall _ _) Hall t Ht) as Hb. cbn in Hb. lia.
Qed.

Lemma serve_all_never_reuses_ids_witness :
  let rs := [DELETE_tasks; POST_tasks (single_body "C" 1)] in
  let w := mkWorld two_tasks 100 [] in
  map ID (rows (store (serve_all no_time rs w))) = [3] /\
  forall t', In t' (rows (store (serve_all no_time rs w))) ->
    (exists t, In t (rows (store w)) /\ ID t = ID t' /\ CreatedAt t = CreatedAt t') \/
    (seq (store w) < ID t' /\ forall t, In t (rows (store w)) -> ID t < ID t').
Proof.
  intros rs w. split; [vm_compute; reflexivity|].
  apply (serve_all_never_reuses_ids no_time rs w).
  unfold keyed. cbn. repeat split; try lia.
  - repeat constructor; cbn; intuition lia.
  - repeat constructor; cbn; lia.
Defined.

(** ** GET /tasks *)

Lemma positive_int_Some s n :
  positive_int s = Some n -> Go.Atoi s = Some n /\ (n <=? 0) = false /\ 0 < n.
Proof.
  unfold positive_int. destruct (Go.Atoi s) as [m|]; [|discriminate].
  destruct (m <=? 0) eqn:E; [discriminate|]. intros H. inversion H; subst.
  split; [reflexivity|]. split; [exact E|]. apply Z.leb_gt in E. lia.
Qed.

Lemma select_page_window limit offset d :
  0 <= limit -> SQL.select_page limit offset d = window offset limit d.
Proof.
  intros H. unfold SQL.select_page, SQL.limit_offset, window.
  replace (limit <? 0) with false by (symmetry; apply Z.ltb_ge; lia). reflexivity.
Qed.

Lemma window_ascending offset limit d : ascending (window offset limit d).
Proof. unfold window. apply sorted_firstn, sorted_skipn, order_by_position_ascending. Qed.

Lemma In_skipn {A} n : forall (l : list A) x, In x (skipn n l) -> In x l.
Proof.
  induction n as [|n IH]; intros l x Hx; [exact Hx|].
  destruct l as [|a l]; [contradiction|]. right. now apply IH.
Qed.

Lemma window_incl offset limit d : incl (window offset limit d) (rows d).
Proof.
  intros x Hx. unfold window in Hx. apply In_firstn, In_skipn in Hx.
  eapply Permutation_in; [apply order_by_position_perm | exact Hx].
Qed.


(** X3.  A GET whose [page] (1 when absent) is not a positive [int] is
    answered 400 "Invalid page value"; otherwise one whose [limit] (10 when
    absent) is not a positive [int] is answered 400 "Invalid limit value".
    In both cases no storage call is made: the world is untouched. *)
Theorem get_tasks_rejects_bad_paging pageQuery limitQuery w :
  (positive_int (DefaultQuery pageQuery "1") = None ->
   get_tasks pageQuery limitQuery w = (inl (bad_request "Invalid page value"), w)) /\
  (positive_int (DefaultQuery pageQuery "1") <> None ->
   positive_int (DefaultQuery limitQuery "10") = None ->
   get_tasks pageQuery limitQuery w = (inl (bad_request "Invalid limit value"), w)).
Proof.
  unfold get_tasks, positive_int. split.
  - destruct (Go.Atoi (DefaultQuery pageQuery "1")) as [p|]; [|reflexivity].
    destruct (p <=? 0); [reflexivity | discriminate].
  - destruct (Go.Atoi (DefaultQuery pageQuery "1")) as [p|]; [|intros H; now elim H].
    destruct (p <=? 0); [intros H; now elim H|]. intros _.
    destruct (Go.Atoi (DefaultQuery limitQuery "10")) as [l|]; [|reflexivity].
    destruct (l <=? 0); [reflexivity | discriminate].
Qed.

Lemma get_tasks_rejects_bad_paging_witness :
  get_tasks (Some "0") (Some "x") (mkWorld two_tasks 100 [true])
  = (inl (bad_request "Invalid page value"), mkWorld two_tasks 100 [true]) /\
  get_tasks None (Some "-3") (mkWorld two_tasks 100 [true])
  = (inl (bad_request "Invalid limit value"), mkWorld two_tasks 100 [true]).
Proof.
  split.
  - apply (proj1 (get_tasks_rejects_bad_paging (Some "0") (Some "x") _)). reflexivity.
  - apply (proj2 (get_tasks_rejects_bad_paging None (Some "-3") _)); [discriminate | reflexivity].
Defined.

Lemma get_tasks_ok pageQuery limitQuery p l d c fs :
  positive_int (DefaultQuery pageQuery "1") = Some p ->
  positive_int (DefaultQuery limitQuery "10") = Some l ->
  quiet 2 fs ->
  get_tasks pageQuery limitQuery (mkWorld d c fs)
  = (inr (mkListing (Z.of_nat (length (rows d))) p l
                    (window (Go.wrap ((p - 1) * l)) l d)),
     mkWorld d c (skipn 2 fs)).
Proof.
  intros Hp Hl Hq.
  apply positive_int_Some in Hp as (Hp & Hp0 & Hp').
  apply positive_int_Some in Hl as (Hl & Hl0 & Hl').
  unfold get_tasks. rewrite Hp, Hp0, Hl, Hl0. unfold bind.
  rewrite GetPaginatedTasks_ok by assumption.
  rewrite select_page_window by lia. reflexivity.
Qed.

(** X4.  A GET with positive [page] and [limit] whose offset
    [(page - 1) * limit] fits an [int], and whose two storage calls
    succeed, is answered 200 with the page and limit it was asked, the
    number of all stored tasks, and the tasks ranked [(page - 1) * limit]
    and up by position: at most [limit] of them, all stored, in ascending
    position.  The table is not touched. *)
Theorem get_tasks_page pageQuery limitQuery p l w :
  positive_int (DefaultQuery pageQuery "1") = Some p ->
  positive_int (DefaultQuery limitQuery "10") = Some l ->
  (p - 1) * l <= Go.max_int ->
  quiet 2 (faults w) ->
  exists ts w',
    get_tasks pageQuery limitQuery w
    = (inr (mkListing (Z.of_nat (length (rows (store w)))) p l ts), w') /\
    store w' = store w /\
    ts = window ((p - 1) * l) l (store w) /\
    (length ts <= Z.to_nat l)%nat /\
    ascending ts /\
    incl ts (rows (store w)).
Proof.
  destruct w as [d c fs]. cbn [store faults]. intros Hp Hl Hfit Hq.
  pose proof (positive_int_Some _ _ Hp) as (_ & _ & Hp').
  pose proof (positive_int_Some _ _ Hl) as (_ & _ & Hl').
  exists (window ((p - 1) * l) l d). eexists. split; [|split; [|split; [|split; [|split]]]].
  - rewrite (get_tasks_ok pageQuery limitQuery p l) by assumption.
    rewrite wrap_in_range by (unfold Go.min_int; nia). reflexivity.
  - reflexivity.
  - reflexivity.
  - unfold window. apply firstn_le_length.
  - apply window_ascending.
  - apply window_incl.
Qed.

Lemma get_tasks_page_witness :
  exists w',
    get_tasks (Some "2") (Some "1") (mkWorld two_tasks 100 [])
    = (inr (mkListing 2 2 1 [mkTask 2 "B" "" 2 14 15]), w').
Proof.
  destruct (get_tasks_page (Some "2") (Some "1") 2 1 (mkWorld two_tasks 100 []))
    as (ts & w' & Hrun & _ & Hts & _).
  - reflexivity.
  - reflexivity.
  - unfold Go.max_int. lia.
  - apply quiet_nil.
  - exists w'. rewrite Hrun, Hts. reflexivity.
Defined.

(** X5.  A page past the end is not an error: when the offset
    [(page - 1) * limit] is at least the number of stored tasks, the GET is
    answered 200 with no task and with the true total. *)
Theorem get_tasks_past_the_end pageQuery limitQuery p l w :
  positive_int (DefaultQuery pageQuery "1") = Some p ->
  positive_int (DefaultQuery limitQuery "10") = Some l ->
  (p - 1) * l <= Go.max_int ->
  Z.of_nat (length (rows (store w))) <= (p - 1) * l ->
  quiet 2 (faults w) ->
  exists w',
    get_tasks pageQuery limitQuery w
    = (inr (mkListing (Z.of_nat (length (rows (store w)))) p l []), w').
Proof.
  destruct w as [d c fs]. cbn [store faults]. intros Hp Hl Hfit Hpast Hq.
  pose proof (positive_int_Some _ _ Hp) as (_ & _ & Hp').
  pose proof (positive_int_Some _ _ Hl) as (_ & _ & Hl').
  eexists. rewrite (get_tasks_ok pageQuery limitQuery p l) by assumption.
  rewrite wrap_in_range by (unfold Go.min_int; nia).
  unfold window. rewrite skipn_all2; [now rewrite firstn_nil|].
  rewrite (Permutation_length (order_by_position_perm (rows d))). lia.
Qed.

Lemma get_tasks_past_the_end_witness :
  exists w',
    get_tasks (Some "2") None (mkWorld two_tasks 100 []) = (inr (mkListing 2 2 10 []), w').
Proof.
  apply (get_tasks_past_the_end (Some "2") None 2 10 (mkWorld two_tasks 100 [])).
  - reflexivity.
  - reflexivity.
  - unfold Go.max_int. lia.
  - cbn. lia.
  - apply quiet_nil.
Defined.

(** X6.  The offset is computed in [int]: when [(page - 1) * limit] wraps
    around to zero or below, the GET is answered 200 with the first [limit]
    tasks, whatever the page asked. *)
Theorem get_tasks_offset_wraps pageQuery limitQuery p l w :
  positive_int (DefaultQuery pageQuery "1") = Some p ->
  positive_int (DefaultQuery limitQuery "10") = Some l ->
  Go.wrap ((p - 1) * l) <= 0 ->
  quiet 2 (faults w) ->
  exists w',
    get_tasks pageQuery limitQuery w
    = (inr (mkListing (Z.of_nat (length (rows (store w)))) p l (window 0 l (store w))), w').
Proof.
  destruct w as [d c fs]. cbn [store faults]. intros Hp Hl Hwrap Hq.
  eexists. rewrite (get_tasks_ok pageQuery limitQuery p l) by assumption.
  unfold window. replace (Z.to_nat (Go.wrap ((p - 1) * l))) with 0%nat by lia. reflexivity.
Qed.

Lemma get_tasks_offset_wraps_witness :
  exists w',
    get_tasks (Some "4611686018427387905") (Some "4") (mkWorld two_tasks 100 [])
    = (inr (mkListing 2 4611686018427387905 4
                      [mkTask 1 "A" "" 1 10 11; mkTask 2 "B" "" 2 14 15]), w').
Proof.
  apply (get_tasks_offset_wraps (Some "4611686018427387905") (Some "4")
           4611686018427387905 4 (mkWorld two_tasks 100 [])).
  - vm_compute; reflexivity.
  - reflexivity.
  - vm_compute. discriminate.
  - apply quiet_nil.
Defined.

(** ** GetPaginatedTasks and GetAllTasks *)



(** X8.  [GetAllTasks] returns every stored task exactly once, in ascending
    position, and does not touch the table; it is the page at offset 0 that
    [GetPaginatedTasks] returns for any limit that is at least the number
    of tasks. *)
Theorem GetAllTasks_lists_everything limit w :
  Z.of_nat (length (rows (store w))) <= limit ->
  quiet 2 (faults w) ->
  exists all w',
    utils.GetAllTasks w = (Ok all, w') /\
    store w' = store w /\
    Permutation all (rows (store w)) /\
    ascending all /\
    fst (utils.GetPaginatedTasks 0 limit w) = Ok (all, Z.of_nat (length all)).
Proof.
  destruct w as [d c fs]. cbn [store faults]. intros Hlim Hq.
  pose proof (quiet_S _ _ Hq) as [H0 _].
  exists (SQL.order_by_position (rows d)). eexists. split; [|split; [|split; [|split]]].
  - unfold utils.GetAllTasks. now rewrite db_Query_ok.
  - reflexivity.
  - apply order_by_position_perm.
  - apply order_by_position_ascending.
  - rewrite GetPaginatedTasks_ok by assumption. cbn [fst].
    rewrite select_page_window by lia. unfold window, SQL.count_all. cbn [skipn Z.to_nat].
    rewrite (Permutation_length (order_by_position_perm (rows d))).
    rewrite firstn_all2; [reflexivity|].
    rewrite (Permutation_length (order_by_position_perm (rows d))). lia.
Qed.

Lemma GetAllTasks_lists_everything_witness :
  exists all w',
    utils.GetAllTasks (mkWorld two_tasks 100 []) = (Ok all, w') /\
    Permutation all (rows two_tasks).
Proof.
  destruct (GetAllTasks_lists_everything 2 (mkWorld two_tasks 100 []))
    as (all & w' & Hrun & _ & Hperm & _).
  - cbn. lia.
  - apply quiet_nil.
  - exists all, w'. split; assumption.
Defined.

(** ** Deleting *)

Lemma filter_other_ids id l :
  ~ In id (map ID l) -> filter (fun t => negb (ID t =? id)) l = l.
Proof.
  induction l as [|a l IH]; cbn; intros H; [reflexivity|].
  destruct (ID a =? id) eqn:E.
  - apply Z.eqb_eq in E. elim H. now left.
  - cbn. f_equal. apply IH. tauto.
Qed.

Lemma count_id_absent id l :
  ~ In id (map ID l) -> filter (fun t => ID t =? id) l = [].
Proof.
  induction l as [|a l IH]; cbn; intros H; [reflexivity|].
  destruct (ID a =? id) eqn:E.
  - apply Z.eqb_eq in E. elim H. now left.
  - apply IH. tauto.
Qed.

Lemma count_id_present id d :
  0 < SQL.count_id id d -> In id (map ID (rows d)).
Proof.
  unfold SQL.count_id. intros H.
  destruct (in_dec Z.eq_dec id (map ID (rows d))) as [Hin|Hnin]; [exact Hin|].
  rewrite count_id_absent in H by assumption. cbn in H. lia.
Qed.

(** With ids a key, the row of a stored id splits the table, and the
    DELETE statement removes that row and no other. *)
Lemma delete_splits id l :
  NoDup (map ID l) -> In id (map ID l) ->
  exists before t after,
    l = (before ++ t :: after)%list /\ ID t = id /\
    filter (fun t => negb (ID t =? id)) l = (before ++ after)%list /\
    ~ In id (map ID (before ++ after)).
Proof.
  induction l as [|a l IH]; cbn; intros Hnd Hin; [contradiction|].
  apply NoDup_cons_iff in Hnd as [Hnin Hnd].
  destruct (ID a =? id) eqn:E.
  - apply Z.eqb_eq in E. subst id. exists [], a, l. cbn.
    rewrite filter_other_ids by assumption. auto.
  - apply Z.eqb_neq in E. destruct Hin as [Heq|Hin]; [contradiction|].
    destruct (IH Hnd Hin) as (before & t & after & -> & Hid & Hf & Hout).
    exists (a :: before), t, after. cbn. rewrite Hf. repeat split; try assumption.
    intros [Heq|H']; [contradiction | now apply Hout].
Qed.

Lemma DeleteTask_ok id d c fs :
  hd false fs = false ->
  utils.DeleteTask id (mkWorld d c fs) = (None, mkWorld (SQL.delete id d) c (tl fs)).
Proof.
  intros H. unfold utils.DeleteTask, db_Exec, bind. rewrite storage_fault_run, H. reflexivity.
Qed.


(** X9.  Deleting a stored task removes that row and no other.  With ids
    a key, a DELETE of a stored id whose storage calls succeed is answered
    200; the table afterwards is the table before without the one row of
    that id, the other rows unchanged and in the same order, and the rowid
    counter is kept.  The same DELETE again is answered 404. *)
Theorem delete_task_removes_one idParam id w :
  positive_int idParam = Some id ->
  NoDup (map ID (rows (store w))) ->
  0 < SQL.count_id id (store w) ->
  quiet 3 (faults w) ->
  exists before t after w' w'',
    delete_task idParam w
    = (mkResponse StatusOK (H_message "Task deleted successfully"), w') /\
    rows (store w) = (before ++ t :: after)%list /\ ID t = id /\
    rows (store w') = (before ++ after)%list /\
    seq (store w') = seq (store w) /\
    delete_task idParam w' = (mkResponse StatusNotFound (H_error "Task not found"), w'') /\
    store w'' = store w'.
Proof.
  destruct w as [d c fs]. cbn [store faults]. intros Hp Hnd Hex Hq.
  apply positive_int_Some in Hp as (Hp & Hp0 & _).
  apply quiet_S in Hq as [H0 Hq]. apply quiet_S in Hq as [H1 Hq].
  apply quiet_S in Hq as [H2 _].
  destruct (delete_splits id (rows d) Hnd (count_id_present id d Hex))
    as (before & t & after & Hrows & Hid & Hf & Hout).
  exists before, t, after. eexists. eexists.
  split; [|split; [exact Hrows|split; [exact Hid|split; [|split; [|split]]]]].
  - unfold delete_task. rewrite Hp, Hp0. unfold bind at 1.
    rewrite CheckTaskExists_ok by assumption.
    replace (0 <? SQL.count_id id d) with true by (symmetry; now apply Z.ltb_lt).
    unfold bind. rewrite DeleteTask_ok by assumption. reflexivity.
  - cbn [store SQL.delete rows]. exact Hf.
  - reflexivity.
  - unfold delete_task. rewrite Hp, Hp0. unfold bind.
    rewrite CheckTaskExists_ok by assumption.
    unfold SQL.count_id. cbn [SQL.delete rows]. rewrite Hf.
    rewrite count_id_absent by assumption. reflexivity.
  - reflexivity.
Qed.

Lemma delete_task_removes_one_witness :
  exists w' w'',
    delete_task "1" (mkWorld two_tasks 100 [])
    = (mkResponse StatusOK (H_message "Task deleted successfully"), w') /\
    rows (store w') = [mkTask 2 "B" "" 2 14 15] /\
    delete_task "1" w' = (mkResponse StatusNotFound (H_error "Task not found"), w'').
Proof.
  destruct (delete_task_removes_one "1" 1 (mkWorld two_tasks 100 []))
    as (before & t & after & w' & w'' & Hrun & Hrows & Hid & Hrows' & _ & Hagain & _).
  - reflexivity.
  - cbn. repeat constructor; cbn; intuition lia.
  - reflexivity.
  - apply quiet_nil.
  - exists w', w''. split; [exact Hrun|]. split; [|exact Hagain].
    rewrite Hrows'. cbn in Hrows.
    destruct before as [|b before].
    + cbn in Hrows. inversion Hrows; subst. reflexivity.
    + cbn in Hrows. inversion Hrows as [[Hb Hrest]]. subst b.
      destruct before as [|b' before]; cbn in Hrest; inversion Hrest; subst.
      * cbn in Hid. discriminate.
      * destruct before; discriminate.
Defined.

(** X10.  A DELETE is refused before anything is written: with an [:id]
    that is not a positive [int] it is answered 400 and no storage call is
    made; with an id that no row has it is answered 404, and the table is
    unchanged. *)
Theorem delete_task_rejects idParam w :
  (positive_int idParam = None ->
   delete_task idParam w = (bad_request "Invalid task ID", w)) /\
  (forall id,
     positive_int idParam = Some id ->
     SQL.count_id id (store w) = 0 ->
     quiet 1 (faults w) ->
     exists w',
       delete_task idParam w = (mkResponse StatusNotFound (H_error "Task not found"), w') /\
       store w' = store w).
Proof.
  split.
  - unfold delete_task, positive_int.
    destruct (Go.Atoi idParam) as [id|]; [|reflexivity].
    destruct (id <=? 0); [reflexivity | discriminate].
  - intros id Hp Hmiss Hq. destruct w as [d c fs]. cbn [store faults] in *.
    apply positive_int_Some in Hp as (Hp & Hp0 & _). apply quiet_S in Hq as [H0 _].
    eexists. split.
    { unfold delete_task. rewrite Hp, Hp0. unfold bind.
      rewrite CheckTaskExists_ok by assumption. rewrite Hmiss. reflexivity. }
    reflexivity.
Qed.

Lemma delete_task_rejects_witness :
  delete_task "abc" (mkWorld two_tasks 100 [true]) = (bad_request "Invalid task ID", mkWorld two_tasks 100 [true]) /\
  exists w',
    delete_task "7" (mkWorld two_tasks 100 [])
    = (mkResponse StatusNotFound (H_error "Task not found"), w') /\
    store w' = two_tasks.
Proof.
  split.
  - apply (proj1 (delete_task_rejects "abc" _)). reflexivity.
  - apply (proj2 (delete_task_rejects "7" (mkWorld two_tasks 100 [])) 7).
    + reflexivity.
    + reflexivity.
    + apply quiet_nil.
Defined.

(** ** Updating *)



(** ** Creating *)

Lemma count_id_last id l t :
  ID t = id -> 0 < Z.of_nat (length (filter (fun t => ID t =? id) (l ++ [t]))).
Proof.
  intros H. rewrite filter_app, length_app. cbn.
  replace (ID t =? id) with true by (symmetry; now apply Z.eqb_eq). cbn. lia.
Qed.

Lemma count_position_last p l t :
  Position t = p -> 0 < Z.of_nat (length (filter (fun t => Position t =? p) (l ++ [t]))).
Proof.
  intros H. rewrite filter_app, length_app. cbn.
  replace (Position t =? p) with true by (symmetry; now apply Z.eqb_eq). cbn. lia.
Qed.

(** X12.  What [AddTask] inserts can be looked up.  When its storage call
    succeeds and a rowid is left, [AddTask] returns a task with the title,
    description and position it was given and an id larger than every
    stored id; the table has one row more; and right after,
    [CheckTaskExists] of that id and [CheckPositionExists] of that position
    both answer true. *)
Theorem AddTask_then_found title description position w :
  quiet 3 (faults w) ->
  SQL.next_rowid (store w) <= Go.max_int ->
  exists task w1 w2 w3,
    utils.AddTask title description position w = (Ok task, w1) /\
    Title task = title /\ Description task = description /\ Position task = position /\
    (forall t, In t (rows (store w)) -> ID t < ID task) /\
    length (rows (store w1)) = S (length (rows (store w))) /\
    utils.CheckTaskExists (ID task) w1 = (Ok true, w2) /\
    utils.CheckPositionExists position w2 = (Ok true, w3).
Proof.
  destruct w as [d c fs]. cbn [store faults]. intros Hq Hroom.
  apply quiet_S in Hq as [H0 Hq]. apply quiet_S in Hq as [H1 Hq].
  apply quiet_S in Hq as [H2 _].
  eexists. eexists. eexists. eexists.
  split; [now apply AddTask_ok|]. cbn [Title Description Position ID store rows].
  split; [reflexivity|]. split; [reflexivity|]. split; [reflexivity|].
  split; [intros t Ht; now apply next_rowid_fresh|].
  split; [rewrite length_app; cbn; lia|].
  split.
  - rewrite CheckTaskExists_ok by assumption. unfold SQL.count_id. cbn [rows].
    replace (0 <? _) with true; [reflexivity|].
    symmetry. apply Z.ltb_lt. now apply count_id_last.
  - rewrite CheckPositionExists_ok by assumption. unfold SQL.count_position. cbn [rows].
    replace (0 <? _) with true; [reflexivity|].
    symmetry. apply Z.ltb_lt. now apply count_position_last.
Qed.

Lemma AddTask_then_found_witness :
  exists task w1 w2 w3,
    utils.AddTask "C" "" 9 (mkWorld two_tasks 100 []) = (Ok task, w1) /\
    ID task = 3 /\
    utils.CheckTaskExists (ID task) w1 = (Ok true, w2) /\
    utils.CheckPositionExists 9 w2 = (Ok true, w3).
Proof.
  destruct (AddTask_then_found "C" "" 9 (mkWorld two_tasks 100 []))
    as (task & w1 & w2 & w3 & Hrun & _ & _ & _ & _ & _ & Hid & Hpos).
  - apply quiet_nil.
  - cbn. unfold Go.max_int. lia.
  - exists task, w1, w2, w3. repeat split; try assumption.
    cbn in Hrun. inversion Hrun. reflexivity.
Defined.

Lemma post_tasks_single_branch parse_time body t w :
  one_at_a_time parse_time (POST_tasks body) ->
  Unmarshal_Task parse_time body = Some t ->
  post_tasks parse_time body w = post_tasks_single t w.
Proof.
  intros Hone Hu. unfold post_tasks, post_tasks_object. cbn in Hone.
  destruct (Unmarshal_Tasks parse_time body) as [[|a l]|]; try contradiction;
    cbn; now rewrite Hu.
Qed.

(** X13.  A single create that passes its checks stores exactly the task it
    was given.  For a body that decodes to one task with a title and a
    positive position that no stored row has, when the two storage calls
    succeed and a rowid is left, the answer is 201 with the created task,
    and the table is the table before followed by one row with the id of
    that task, an id larger than every stored id, and the title,
    description and position of the body. *)
Theorem create_single_stores_the_task parse_time body t w :
  one_at_a_time parse_time (POST_tasks body) ->
  Unmarshal_Task parse_time body = Some t ->
  task_ok (store w) t ->
  quiet 2 (faults w) ->
  SQL.next_rowid (store w) <= Go.max_int ->
  exists task row w',
    post_tasks parse_time body w = (mkResponse StatusCreated (J_task task), w') /\
    rows (store w') = (rows (store w) ++ [row])%list /\
    ID row = ID task /\
    (forall u, In u (rows (store w)) -> ID u < ID task) /\
    Title task = Title t /\ Description task = Description t /\ Position task = Position t /\
    Title row = Title t /\ Description row = Description t /\ Position row = Position t.
Proof.
  destruct w as [d c fs]. cbn [store faults]. intros Hone Hu Hok Hq Hroom.
  apply quiet_S in Hq as [H0 Hq]. apply quiet_S in Hq as [H1 _].
  apply task_ok_tests in Hok as [Ht1 Ht2].
  eexists. eexists. eexists. split.
  { rewrite (post_tasks_single_branch parse_time body t) by assumption.
    unfold post_tasks_single. rewrite Ht1. unfold bind at 1.
    rewrite CheckPositionExists_ok by assumption. rewrite Ht2.
    unfold bind. rewrite AddTask_ok by assumption. reflexivity. }
  cbn [store rows ID Title Description Position]. repeat split.
  intros u Hu'. now apply next_rowid_fresh.
Qed.

Lemma create_single_stores_the_task_witness :
  exists task w',
    post_tasks no_time (single_body "C" 3) (mkWorld two_tasks 100 [])
    = (mkResponse StatusCreated (J_task task), w') /\
    ID task = 3 /\ Position task = 3.
Proof.
  destruct (create_single_stores_the_task no_time (single_body "C" 3)
              (mkTask 0 "C" "" 3 0 0) (mkWorld two_tasks 100 []))
    as (task & row & w' & Hrun & _).
  - exact I.
  - reflexivity.
  - repeat split; cbn; (discriminate || lia).
  - apply quiet_nil.
  - cbn. unfold Go.max_int. lia.
  - exists task, w'. split; [exact Hrun|]. cbn in Hrun. inversion Hrun. split; reflexivity.
Defined.



(** X15.  How a POST body is dispatched.  A body that is not JSON, a JSON
    scalar, and a JSON array that does not decode to a non-empty list of
    tasks (the empty array among them) are answered 400 "Invalid request
    body"; an array is never read as a single task.  The body [null]
    decodes to a task without title and is answered 400 "Title and position
    are required".  None of these makes a storage call. *)
Theorem post_tasks_dispatch parse_time w :
  post_tasks parse_time None w = (bad_request "Invalid request body", w) /\
  (forall b, post_tasks parse_time (Some (JBool b)) w = (bad_request "Invalid request body", w)) /\
  (forall z, post_tasks parse_time (Some (JInt z)) w = (bad_request "Invalid request body", w)) /\
  post_tasks parse_time (Some JFrac) w = (bad_request "Invalid request body", w) /\
  (forall s, post_tasks parse_time (Some (JStr s)) w = (bad_request "Invalid request body", w)) /\
  post_tasks parse_time (Some JNull) w = (bad_request "Title and position are required", w) /\
  (forall l,
     match Unmarshal_Tasks parse_time (Some (JArr l)) with
     | Some (t :: ts) =>
         post_tasks parse_time (Some (JArr l)) w = post_tasks_array (t :: ts) w
     | _ =>
         post_tasks parse_time (Some (JArr l)) w = (bad_request "Invalid request body", w)
     end).
Proof.
  repeat split; try reflexivity.
  intros l. unfold post_tasks.
  destruct (Unmarshal_Tasks parse_time (Some (JArr l))) as [[|t ts]|]; reflexivity.
Qed.

(** ** Deleting everything *)

(** X16.  Deleting all tasks does not reset the ids.  With ids a key, when
    the storage calls succeed and a rowid is left, DELETE /tasks is
    answered 200 and empties the table, and the task that [AddTask] creates
    next gets the id after the rowid counter from before, larger than every
    id that was stored, not 1. *)
Theorem delete_tasks_keeps_the_counter title description position w :
  keyed (store w) ->
  quiet 2 (faults w) ->
  seq (store w) < Go.max_int ->
  exists w1 task w2,
    delete_tasks w = (mkResponse StatusOK (H_message "All tasks deleted successfully"), w1) /\
    rows (store w1) = [] /\
    utils.AddTask title description position w1 = (Ok task, w2) /\
    ID task = seq (store w) + 1 /\
    (forall t, In t (rows (store w)) -> ID t < ID task).
Proof.
  destruct w as [d c fs]. cbn [store faults]. intros (Hnd & Hall & Hseq) Hq Hroom.
  apply quiet_S in Hq as [H0 Hq]. apply quiet_S in Hq as [H1 _].
  assert (Hnext : SQL.next_rowid (SQL.delete_all d) = seq d + 1).
  { unfold SQL.next_rowid. cbn. lia. }
  exists (mkWorld (SQL.delete_all d) c (tl fs)). eexists. eexists. split.
  { unfold delete_tasks, utils.DeleteAllTasks, db_Exec, bind.
    rewrite storage_fault_run, H0. reflexivity. }
  split; [reflexivity|]. split.
  { apply AddTask_ok; [assumption | rewrite Hnext; lia]. }
  cbn [ID]. split; [exact Hnext|].
  intros t Ht. pose proof (proj1 (Forall_forall _ _) Hall t Ht) as Hb. cbn in Hb.
  rewrite Hnext. lia.
Qed.

Lemma delete_tasks_keeps_the_counter_witness :
  exists w1 task w2,
    delete_tasks (mkWorld two_tasks 100 [])
    = (mkResponse StatusOK (H_message "All tasks deleted successfully"), w1) /\
    rows (store w1) = [] /\
    utils.AddTask "C" "" 1 w1 = (Ok task, w2) /\
    ID task = 3.
Proof.
  destruct (delete_tasks_keeps_the_counter "C" "" 1 (mkWorld two_tasks 100 []))
    as (w1 & task & w2 & Hrun & Hrows & Hadd & Hid & _).
  - unfold keyed. cbn. repeat split; try lia.
    + repeat constructor; cbn; intuition lia.
    + repeat constructor; cbn; lia.
  - apply quiet_nil.
  - cbn. unfold Go.max_int. lia.
  - exists w1, task, w2. repeat split; assumption.
Defined.

(** ** Reordering *)

Lemma patch_reorder_ok body items d c fs :
  bind_items body = Some items ->
  Forall (item_ok d) items ->
  quiet (length items + 1 + length items + 1) fs ->
  patch_reorder body (mkWorld d c fs)
  = (mkResponse StatusOK (H_message "Tasks reordered successfully"),
     mkWorld (apply_items items c d) (c + Z.of_nat (length items))
             (skipn (length items + 1 + length items + 1) fs)).
Proof.
  intros Hb Hok Hq.
  assert (Hq1 : quiet (length items) fs) by (eapply quiet_weaken; [|exact Hq]; lia).
  assert (Hq2 : quiet (1 + (length items + 1)) (skipn (length items) fs)).
  { apply quiet_skipn. eapply quiet_weaken; [|exact Hq]. lia. }
  apply quiet_S in Hq2 as [Hhd Hq2].
  assert (Hq3 : quiet (length items) (tl (skipn (length items) fs)))
    by (eapply quiet_weaken; [|exact Hq2]; lia).
  assert (Hq4 : quiet 1 (skipn (length items) (tl (skipn (length items) fs)))).
  { apply quiet_skipn. eapply quiet_weaken; [|exact Hq2]. lia. }
  apply quiet_S in Hq4 as [Hhd4 _].
  unfold patch_reorder. rewrite Hb. unfold bind at 1.
  rewrite check_items_pass by assumption.
  unfold bind at 1. unfold db_Begin, bind at 1. rewrite storage_fault_run, Hhd. cbn [ret].
  unfold bind at 1. rewrite exec_items_pass by assumption.
  unfold bind, tx_Commit, bind. rewrite storage_fault_run, Hhd4.
  cbn [get_store put_store ret store clock faults JSON]. unfold JSON, ret.
  f_equal. f_equal.
  rewrite !tl_skipn, !skipn_skipn. f_equal. lia.
Qed.

(** What the updates of a batch do to the row at any index. *)
Lemma apply_items_row items : forall c d i t,
  nth_error (rows d) i = Some t ->
  exists t',
    nth_error (rows (apply_items items c d)) i = Some t' /\
    ID t' = ID t /\ Title t' = Title t /\ Description t' = Description t /\
    CreatedAt t' = CreatedAt t /\
    (~ In (ID t) (map item_ID items) -> t' = t) /\
    (NoDup (map item_ID items) ->
     forall it, In it items -> item_ID it = ID t -> Position t' = item_Position it).
Proof.
  induction items as [|it0 rest IH]; intros c d i t Hi; cbn [apply_items].
  - exists t. repeat split; auto. intros _ it [].
  - set (t1 := if ID t =? item_ID it0
               then mkTask (ID t) (Title t) (Description t) (item_Position it0)
                           (CreatedAt t) c
               else t).
    assert (Hi1 : nth_error (rows (SQL.update_position (item_Position it0) c (item_ID it0) d)) i
                  = Some t1).
    { cbn. rewrite nth_error_map, Hi. reflexivity. }
    assert (Ht1 : ID t1 = ID t /\ Title t1 = Title t /\ Description t1 = Description t /\
                  CreatedAt t1 = CreatedAt t).
    { unfold t1. destruct (ID t =? item_ID it0); auto. }
    destruct Ht1 as (E1 & E2 & E3 & E4).
    destruct (IH (c + 1) _ i t1 Hi1) as (t' & Hn & H1 & H2 & H3 & H4 & Hout & Hin).
    exists t'. split; [exact Hn|].
    split; [congruence|]. split; [congruence|]. split; [congruence|]. split; [congruence|].
    split.
    + intros Hnot. cbn in Hnot. rewrite Hout by (rewrite E1; tauto).
      unfold t1. destruct (ID t =? item_ID it0) eqn:E; [|reflexivity].
      apply Z.eqb_eq in E. elim Hnot. left. congruence.
    + intros Hnd it [<-|Hit] Hid.
      * cbn in Hnd. apply NoDup_cons_iff in Hnd as [Hnin _].
        rewrite Hout by (rewrite E1, <- Hid; exact Hnin).
        unfold t1. replace (ID t =? item_ID it0) with true
          by (symmetry; apply Z.eqb_eq; congruence).
        reflexivity.
      * cbn in Hnd. apply NoDup_cons_iff in Hnd as [_ Hnd].
        apply (Hin Hnd it Hit). congruence.
Qed.

(** X17.  What a successful reorder does.  For a batch whose pairs are all
    well-formed and stored and name each id once, when the storage calls
    succeed the answer is 200 and every row keeps its place, its id, title,
    description and created_at; a task named in the batch has the position
    of its pair, so two tasks can swap positions in one request; a task
    that the batch does not name is unchanged. *)
Theorem reorder_moves_the_named_tasks body items w :
  bind_items body = Some items ->
  Forall (item_ok (store w)) items ->
  NoDup (map item_ID items) ->
  quiet (length items + 1 + length items + 1) (faults w) ->
  exists w',
    patch_reorder body w
    = (mkResponse StatusOK (H_message "Tasks reordered successfully"), w') /\
    forall i t, nth_error (rows (store w)) i = Some t ->
      exists t',
        nth_error (rows (store w')) i = Some t' /\
        ID t' = ID t /\ Title t' = Title t /\ Description t' = Description t /\
        CreatedAt t' = CreatedAt t /\
        (~ In (ID t) (map item_ID items) -> t' = t) /\
        (forall it, In it items -> item_ID it = ID t -> Position t' = item_Position it).
Proof.
  destruct w as [d c fs]. cbn [store faults]. intros Hb Hok Hnd Hq.
  eexists. split; [apply (patch_reorder_ok body items); assumption|]. cbn [store].
  intros i t Hi.
  destruct (apply_items_row items c d i t Hi) as (t' & Hn & H1 & H2 & H3 & H4 & Hout & Hin).
  exists t'. repeat split; try assumption. now apply Hin.
Qed.

Lemma reorder_moves_the_named_tasks_witness :
  let body := Some (JArr [JObj [("id", JInt 1); ("position", JInt 2)];
                          JObj [("id", JInt 2); ("position", JInt 1)]]) in
  exists w',
    patch_reorder body (mkWorld two_tasks 100 [])
    = (mkResponse StatusOK (H_message "Tasks reordered successfully"), w') /\
    exists t', nth_error (rows (store w')) 0 = Some t' /\ Position t' = 2.
Proof.
  intros body.
  destruct (reorder_moves_the_named_tasks body [mkItem 1 2; mkItem 2 1]
              (mkWorld two_tasks 100 [])) as (w' & Hrun & Hrows).
  - reflexivity.
  - repeat constructor; cbn; lia.
  - cbn. repeat constructor; cbn; intuition lia.
  - apply quiet_nil.
  - exists w'. split; [exact Hrun|].
    destruct (Hrows 0%nat (mkTask 1 "A" "" 1 10 11) eq_refl)
      as (t' & Hn & _ & _ & _ & _ & _ & Hpos).
    exists t'. split; [exact Hn|]. apply (Hpos (mkItem 1 2)); [now left | reflexivity].
Defined.

(** ** ReorderTasks *)

Lemma reorder_each_cases l : forall tx d c fs x w',
  utils.reorder_each l tx (mkWorld d c fs) = (x, w') ->
  store w' = d /\
  match x with
  | inl _ => True
  | inr tx' =>
      (forall d0, tx' d0 = apply_tasks l c (tx d0)) /\
      Forall (fun t => ~ invalid_task t) l
  end.
Proof.
  induction l as [|t rest IH]; intros tx d c fs x w'; cbn [utils.reorder_each].
  - intros H. inversion H; subst. cbn. auto.
  - destruct ((ID t =? 0) || (Position t <=? 0)) eqn:E.
    { unfold bind, tx_Rollback, bind. rewrite storage_fault_run.
      intros H. inversion H; subst. cbn. auto. }
    unfold bind at 1. cbn [time_Now clock store faults].
    unfold bind at 1. unfold tx_Exec, bind at 1. rewrite storage_fault_run.
    destruct (hd false fs); cbn [ret].
    { unfold bind, tx_Rollback, bind. rewrite storage_fault_run.
      intros H. inversion H; subst. cbn. auto. }
    intros H. apply IH in H as [Hst Hres]. split; [exact Hst|].
    destruct x as [e|tx']; [exact I|].
    destruct Hres as [Htx Hval]. split; [exact Htx|].
    constructor; [|exact Hval].
    apply orb_false_iff in E as [E1 E2]. apply Z.eqb_neq in E1. apply Z.leb_gt in E2.
    intros [H|H]; [contradiction | lia].
Qed.

(** X18.  [ReorderTasks] is all or nothing, whatever storage calls fail.
    When it returns no error, the committed table is the table before with
    every update of the list applied in order; when it returns an error,
    the committed table is the table before.  A list with a task whose id
    is 0 or whose position is not positive always ends in an error. *)
Theorem ReorderTasks_all_or_nothing updatedTasks w :
  (fst (utils.ReorderTasks updatedTasks w) = None ->
   store (snd (utils.ReorderTasks updatedTasks w))
   = apply_tasks updatedTasks (clock w) (store w)) /\
  (fst (utils.ReorderTasks updatedTasks w) <> None ->
   store (snd (utils.ReorderTasks updatedTasks w)) = store w) /\
  (Exists invalid_task updatedTasks ->
   fst (utils.ReorderTasks updatedTasks w) <> None).
Proof.
  destruct w as [d c fs]. cbn [store clock].
  destruct (utils.ReorderTasks updatedTasks (mkWorld d c fs)) as [e w'] eqn:Hrun.
  cbn [fst snd]. revert Hrun.
  unfold utils.ReorderTasks. unfold bind at 1. unfold db_Begin, bind at 1.
  rewrite storage_fault_run. destruct (hd false fs); cbn [ret].
  { intros H. inversion H; subst. cbn. repeat split; try discriminate. }
  unfold bind at 1.
  destruct (utils.reorder_each updatedTasks (fun d0 => d0) (mkWorld d c (tl fs)))
    as [x [d1 c1 fs1]] eqn:Hloop.
  apply reorder_each_cases in Hloop as [Hst Hres]. cbn [store] in Hst. subst d1.
  destruct x as [err|tx'].
  { intros H. inversion H; subst. cbn. repeat split; try discriminate. }
  destruct Hres as [Htx Hval].
  unfold bind, tx_Commit, bind. rewrite storage_fault_run.
  destruct (hd false fs1); cbn; intros H; inversion H; subst; cbn.
  - split; [discriminate|]. split; [reflexivity|]. discriminate.
  - split; [intros _; apply Htx|]. split; [intros H'; now elim H'|].
    intros Hex. exfalso. apply Exists_exists in Hex as (t & Ht & Hbad).
    apply (proj1 (Forall_forall _ _) Hval t Ht Hbad).
Qed.

Lemma ReorderTasks_all_or_nothing_witness :
  let swap := [mkTask 1 "" "" 2 0 0; mkTask 2 "" "" 1 0 0] in
  map Position (rows (store (snd (utils.ReorderTasks swap (mkWorld two_tasks 100 []))))) = [2; 1] /\
  store (snd (utils.ReorderTasks swap (mkWorld two_tasks 100 [false; false; true]))) = two_tasks /\
  fst (utils.ReorderTasks [mkTask 1 "" "" 2 0 0; mkTask 2 "" "" 0 0 0]
         (mkWorld two_tasks 100 [])) <> None.
Proof.
  intros swap. split; [|split].
  - rewrite (proj1 (ReorderTasks_all_or_nothing swap (mkWorld two_tasks 100 [])));
      reflexivity.
  - apply (proj1 (proj2 (ReorderTasks_all_or_nothing swap
                           (mkWorld two_tasks 100 [false; false; true])))).
    discriminate.
  - apply (proj2 (proj2 (ReorderTasks_all_or_nothing _ (mkWorld two_tasks 100 [])))).
    apply Exists_cons_tl. apply Exists_cons_hd. right. cbn. lia.
Defined.

Lemma silent_skipn n fs : silent fs -> silent (skipn n fs).
Proof. intros H m. apply quiet_skipn. apply H. Qed.

Lemma reorder_each_pass l : forall tx d c fs,
  Forall (fun t => ~ invalid_task t) l ->
  quiet (length l) fs ->
  utils.reorder_each l tx (mkWorld d c fs)
  = (inr (fun d0 => apply_tasks l c (tx d0)),
     mkWorld d (c + Z.of_nat (length l)) (skipn (length l) fs)).
Proof.
  induction l as [|t rest IH]; intros tx d c fs Hval Hq.
  - cbn. now rewrite Z.add_0_r.
  - inversion Hval as [|? ? Ht Hrest]; subst. apply quiet_S in Hq as [Hhd Hq].
    cbn [utils.reorder_each].
    replace ((ID t =? 0) || (Position t <=? 0)) with false.
    2:{ symmetry. apply orb_false_iff. unfold invalid_task in Ht. split.
        - apply Z.eqb_neq. tauto.
        - apply Z.leb_gt. lia. }
    unfold bind, time_Now, tx_Exec, bind. cbn [store clock faults].
    rewrite storage_fault_run, Hhd. cbn [ret].
    rewrite IH by assumption. cbn [apply_tasks length]. rewrite skipn_S_tl.
    f_equal. f_equal. lia.
Qed.

Lemma apply_tasks_of_items items : forall c d,
  apply_tasks (map task_of_item items) c d = apply_items items c d.
Proof.
  induction items as [|it rest IH]; intros c d; cbn; [reflexivity|]. apply IH.
Qed.

(** X19.  [ReorderTasks] and the reorder handler write the same table.  For
    a batch whose pairs are all well-formed and stored, when no storage
    call fails, the handler answers 200, [ReorderTasks] on the same pairs
    returns no error, and the two leave the same committed table. *)
Theorem ReorderTasks_agrees_with_the_handler body items w :
  bind_items body = Some items ->
  Forall (item_ok (store w)) items ->
  silent (faults w) ->
  fst (patch_reorder body w)
  = mkResponse StatusOK (H_message "Tasks reordered successfully") /\
  fst (utils.ReorderTasks (map task_of_item items) w) = None /\
  store (snd (patch_reorder body w))
  = store (snd (utils.ReorderTasks (map task_of_item items) w)).
Proof.
  destruct w as [d c fs]. cbn [store faults]. intros Hb Hok Hs.
  rewrite (patch_reorder_ok body items) by (assumption || apply Hs).
  assert (Hval : Forall (fun t => ~ invalid_task t) (map task_of_item items)).
  { apply Forall_forall. intros t Ht. apply in_map_iff in Ht as (it & <- & Hit).
    destruct (proj1 (Forall_forall _ _) Hok it Hit) as (H1 & H2 & _).
    unfold invalid_task. cbn. lia. }
  pose proof (silent_hd fs Hs) as H0.
  assert (Hrun : utils.ReorderTasks (map task_of_item items) (mkWorld d c fs)
                 = (None, mkWorld (apply_items items c d)
                                  (c + Z.of_nat (length (map task_of_item items)))
                                  (tl (skipn (length (map task_of_item items)) (tl fs))))).
  { unfold utils.ReorderTasks. unfold bind at 1. unfold db_Begin, bind at 1.
    rewrite storage_fault_run, H0. cbn [ret]. unfold bind at 1.
    rewrite reorder_each_pass by (assumption || apply (silent_tl fs Hs)).
    unfold bind, tx_Commit, bind. rewrite storage_fault_run.
    rewrite (silent_hd _ (silent_skipn _ _ (silent_tl fs Hs))).
    cbn. now rewrite apply_tasks_of_items. }
  rewrite Hrun. cbn. auto.
Qed.

Lemma ReorderTasks_agrees_with_the_handler_witness :
  let body := Some (JArr [JObj [("id", JInt 1); ("position", JInt 2)];
                          JObj [("id", JInt 2); ("position", JInt 1)]]) in
  let w := mkWorld two_tasks 100 [] in
  fst (utils.ReorderTasks [task_of_item (mkItem 1 2); task_of_item (mkItem 2 1)] w) = None /\
  store (snd (patch_reorder body w))
  = store (snd (utils.ReorderTasks [task_of_item (mkItem 1 2); task_of_item (mkItem 2 1)] w)).
Proof.
  intros body w.
  destruct (ReorderTasks_agrees_with_the_handler body [mkItem 1 2; mkItem 2 1] w)
    as (_ & Hnone & Hsame).
  - reflexivity.
  - repeat constructor; cbn; lia.
  - apply silent_nil.
  - split; [exact Hnone | exact Hsame].
Defined.

(** ** AddTasks *)

Lemma add_each_is_add_tasks multipleTasks : forall createdTasks w,
  snd (utils.add_each multipleTasks createdTasks w) = snd (add_tasks multipleTasks createdTasks w) /\
  match fst (utils.add_each multipleTasks createdTasks w) with
  | Ok created =>
      fst (add_tasks multipleTasks createdTasks w) = mkResponse StatusCreated (J_tasks created)
  | Err _ => fst (add_tasks multipleTasks createdTasks w) = add_failed
  end.
Proof.
  induction multipleTasks as [|t rest IH]; intros createdTasks w;
    cbn [utils.add_each add_tasks].
  - cbn. auto.
  - unfold bind.
    destruct (utils.AddTask (Title t) (Description t) (Position t) w) as [[newTask|e] w1].
    + apply IH.
    + cbn. auto.
Qed.

(** X20.  [AddTasks] is the second loop of the array create.  Whatever
    storage calls fail, [AddTasks] and that loop leave the same world; the
    one returns the created tasks exactly when the other answers 201 with
    them, and returns an error exactly when the other answers 500 "Failed
    to add tasks".  So [AddTasks] too keeps the inserts made before a
    failure. *)
Theorem AddTasks_is_the_insert_loop multipleTasks w :
  snd (utils.AddTasks multipleTasks w) = snd (add_tasks multipleTasks [] w) /\
  match fst (utils.AddTasks multipleTasks w) with
  | Ok created => fst (add_tasks multipleTasks [] w) = mkResponse StatusCreated (J_tasks created)
  | Err _ => fst (add_tasks multipleTasks [] w) = add_failed
  end.
Proof. apply add_each_is_add_tasks. Qed.

(** ** GenerateDummyTasks under failures *)

Lemma run_deferred_frame opened : forall w,
  Forall holds_nothing opened ->
  store (snd (utils.run_deferred opened w)) = store w.
Proof.
  induction opened as [|tx rest IH]; intros [d c fs] Hid; [reflexivity|].
  inversion Hid as [|? ? Htx Hrest]; subst.
  cbn [utils.run_deferred]. unfold bind at 1. unfold tx_Commit, bind at 1.
  rewrite storage_fault_run. destruct (hd false fs); cbn.
  - now rewrite IH.
  - rewrite IH by assumption. cbn. apply Htx.
Qed.

(** Whatever the schedule, the loop appends a prefix of the rows it was to
    insert, and all of them when it ends without error. *)
Lemma generate_loop_prefix n : forall i startID startPosition opened d c fs out w',
  utils.generate_loop n i startID startPosition opened (mkWorld d c fs) = (out, w') ->
  Forall holds_nothing opened ->
  exists k,
    (k <= n)%nat /\
    rows (store w')
    = (rows d ++ generated_rows k i startID startPosition (SQL.next_rowid d) c)%list /\
    Forall holds_nothing (snd out) /\
    (fst out = None -> k = n).
Proof.
  induction n as [|n IH]; intros i startID startPosition opened d c fs out w' Hrun Hid.
  - cbn in Hrun. inversion Hrun; subst. exists 0%nat. cbn. rewrite app_nil_r. auto.
  - cbn [utils.generate_loop] in Hrun. unfold bind at 1 in Hrun.
    cbn [time_Now clock store faults] in Hrun. unfold bind at 1 in Hrun.
    assert (Hb : exists b fs1,
               (if i mod utils.batchSize =? 0
                then r <- db_Begin ;;
                     ret (match r with Ok tx => Ok (tx :: opened) | Err e => Err e end)
                else ret (Ok opened)) (mkWorld d (c + 1) fs)
               = (b, mkWorld d (c + 1) fs1) /\
               match b with Ok opened1 => Forall holds_nothing opened1 | Err _ => True end).
    { destruct (i mod utils.batchSize =? 0).
      - unfold bind, db_Begin, bind. rewrite storage_fault_run.
        destruct (hd false fs); cbn; eexists; eexists; (split; [reflexivity|]);
          [exact I | constructor; [intros x; reflexivity | assumption]].
      - exists (Ok opened), fs. auto. }
    destruct Hb as (b & fs1 & Hb & Hb'). rewrite Hb in Hrun.
    destruct b as [opened1|txErr].
    2:{ inversion Hrun; subst. exists 0%nat. cbn. rewrite app_nil_r.
        repeat split; try assumption; try lia. discriminate. }
    unfold bind at 1 in Hrun. unfold db_Exec, bind at 1 in Hrun.
    rewrite storage_fault_run in Hrun.
    destruct (hd false fs1).
    { cbn in Hrun. inversion Hrun; subst. exists 0%nat. cbn. rewrite app_nil_r.
      repeat split; try assumption; try lia. discriminate. }
    cbn [get_store store bind] in Hrun. unfold SQL.insert in Hrun.
    destruct (SQL.next_rowid d <=? Go.max_int).
    2:{ cbn in Hrun. inversion Hrun; subst. exists 0%nat. cbn. rewrite app_nil_r.
        repeat split; try assumption; try lia. discriminate. }
    cbn [put_store ret clock faults bind] in Hrun. unfold put_store, bind, ret in Hrun.
    cbn [clock faults] in Hrun.
    apply IH in Hrun; [|assumption].
    destruct Hrun as (k & Hk & Hrows & Hop & Hnone).
    exists (S k). split; [lia|]. split.
    { rewrite Hrows. cbn [rows generated_rows].
      rewrite next_rowid_after_insert, <- app_assoc. reflexivity. }
    split; [assumption|]. intros H. now rewrite Hnone.
Qed.

(** X21.  Whatever storage calls fail, [GenerateDummyTasks] only appends.
    The table afterwards is the table before followed by the first [k] of
    the rows it was to insert, for some [k] up to [count]; [k] is [count]
    when it returns no error.  The rows inserted before a failure stay: the
    transactions that the function begins hold none of its inserts, and
    committing them undoes nothing. *)
Theorem GenerateDummyTasks_appends_a_prefix count w :
  exists k,
    (k <= Z.to_nat count)%nat /\
    rows (store (snd (utils.GenerateDummyTasks count w)))
    = (rows (store w)
       ++ generated_rows k 0 (start_id (store w)) (start_position (store w))
                         (SQL.next_rowid (store w)) (clock w))%list /\
    (fst (utils.GenerateDummyTasks count w) = None -> k = Z.to_nat count).
Proof.
  destruct w as [d c fs]. cbn [store clock].
  destruct (utils.GenerateDummyTasks count (mkWorld d c fs)) as [e w'] eqn:Hrun.
  cbn [fst snd]. revert Hrun.
  assert (Hzero : forall x w1, store w1 = d -> x <> None ->
            (x, w1) = (e, w') ->
            exists k, (k <= Z.to_nat count)%nat /\
              rows (store w')
              = (rows d ++ generated_rows k 0 (start_id d) (start_position d)
                                          (SQL.next_rowid d) c)%list /\
              (e = None -> k = Z.to_nat count)).
  { intros x w1 Hst Hx H. inversion H; subst. exists 0%nat. cbn. rewrite app_nil_r.
    split; [lia|]. split; [reflexivity|]. intros; contradiction. }
  unfold utils.GenerateDummyTasks, utils.GetLastTask.
  unfold bind at 1. unfold db_Query, bind at 1. rewrite storage_fault_run.
  destruct (hd false fs); cbn [ret get_store bind store].
  { apply Hzero; [reflexivity | discriminate]. }
  fold (start_id d). fold (start_position d).
  unfold db_Void.
  unfold bind at 1. unfold bind at 1. rewrite storage_fault_run.
  destruct (hd false (tl fs)); cbn [ret]; [apply Hzero; [reflexivity | discriminate]|].
  unfold bind at 1. unfold bind at 1. rewrite storage_fault_run.
  destruct (hd false (tl (tl fs))); cbn [ret]; [apply Hzero; [reflexivity | discriminate]|].
  unfold bind at 1. unfold bind at 1. rewrite storage_fault_run.
  destruct (hd false (tl (tl (tl fs)))); cbn [ret];
    [apply Hzero; [reflexivity | discriminate]|].
  unfold bind at 1. unfold bind at 1. rewrite storage_fault_run.
  destruct (hd false (tl (tl (tl (tl fs))))); cbn [ret];
    [apply Hzero; [reflexivity | discriminate]|].
  unfold bind at 1.
  destruct (utils.generate_loop (Z.to_nat count) 0 (start_id d) (start_position d) []
              (mkWorld d c (tl (tl (tl (tl (tl fs))))))) as [out w1] eqn:Hloop.
  apply generate_loop_prefix in Hloop; [|constructor].
  destruct Hloop as (k & Hk & Hrows & Hop & Hnone).
  unfold bind. pose proof (run_deferred_frame (snd out) w1 Hop) as Hdef.
  destruct (utils.run_deferred (snd out) w1) as [u w2]. cbn [snd] in Hdef.
  intros H. inversion H; subst. exists k. rewrite Hdef. auto.
Qed.

Lemma GenerateDummyTasks_appends_a_prefix_witness :
  let w := mkWorld two_tasks 100 [false; false; false; false; false; false; false; true] in
  fst (utils.GenerateDummyTasks 3 w) = Some ErrStorage /\
  exists k,
    (k <= 3)%nat /\
    map ID (rows (store (snd (utils.GenerateDummyTasks 3 w))))
    = (map ID (rows two_tasks)
       ++ map ID (generated_rows k 0 (start_id two_tasks) (start_position two_tasks)
                                 (SQL.next_rowid two_tasks) 100))%list /\
    length (rows (store (snd (utils.GenerateDummyTasks 3 w)))) = 3%nat.
Proof.
  intros w. split; [vm_compute; reflexivity|].
  destruct (GenerateDummyTasks_appends_a_prefix 3 w) as (k & Hk & Hrows & _).
  exists k. split; [exact Hk|]. split.
  - rewrite Hrows, map_app. reflexivity.
  - vm_compute. reflexivity.
Defined.

(** ** POST /tasks/generate *)

(** X22.  A generate request is refused before anything is written: without
    a [count], or with an empty one, it is answered 400 "Count parameter is
    required"; with a [count] that is not a positive [int] it is answered
    400 "Invalid count value".  No storage call is made. *)
Theorem post_generate_rejects countQuery w :
  (Query countQuery = "" ->
   post_generate countQuery w = (bad_request "Count parameter is required", w)) /\
  (Query countQuery <> "" ->
   positive_int (Query countQuery) = None ->
   post_generate countQuery w = (bad_request "Invalid count value", w)).
Proof.
  unfold post_generate, positive_int. split.
  - intros ->. reflexivity.
  - intros Hne. apply String.eqb_neq in Hne. rewrite Hne.
    destruct (Go.Atoi (Query countQuery)) as [n|]; [|reflexivity].
    destruct (n <=? 0); [reflexivity | discriminate].
Qed.

Lemma post_generate_rejects_witness :
  post_generate None (mkWorld two_tasks 100 [true])
  = (bad_request "Count parameter is required", mkWorld two_tasks 100 [true]) /\
  post_generate (Some "0") (mkWorld two_tasks 100 [true])
  = (bad_request "Invalid count value", mkWorld two_tasks 100 [true]).
Proof.
  split.
  - apply (proj1 (post_generate_rejects None _)). reflexivity.
  - apply (proj2 (post_generate_rejects (Some "0") _)); [discriminate | reflexivity].
Defined.

(** X23.  A generate request with a positive [count], when no storage call
    fails and rowids are left, is answered 200 "Successfully generated
    [count] dummy tasks", and the table is the table before followed by
    [count] new rows with consecutive ids above every stored id. *)
Theorem post_generate_appends countQuery count w :
  positive_int (Query countQuery) = Some count ->
  silent (faults w) ->
  SQL.next_rowid (store w) + count - 1 <= Go.max_int ->
  exists news w',
    post_generate countQuery w
    = (mkResponse StatusOK
         (H_message ("Successfully generated " ++ Go.itoa count ++ " dummy tasks")), w') /\
    rows (store w') = (rows (store w) ++ news)%list /\
    Z.of_nat (length news) = count /\
    map ID news = consecutive (SQL.next_rowid (store w)) (Z.to_nat count) /\
    (forall t n, In t (rows (store w)) -> In n news -> ID t < ID n).
Proof.
  destruct w as [d c fs]. cbn [store faults]. intros Hp Hs Hroom.
  apply positive_int_Some in Hp as (Hp & Hp0 & Hpos).
  destruct (GenerateDummyTasks_ok count d c fs Hs) as (d' & fs' & Hrun & Hrows); [lia|].
  destruct (generated_rows_ids (Z.to_nat count) 0 (start_id d) (start_position d)
              (SQL.next_rowid d) c) as [Hlen Hids].
  exists (generated_rows (Z.to_nat count) 0 (start_id d) (start_position d)
                         (SQL.next_rowid d) c).
  exists (mkWorld d' (c + Z.of_nat (Z.to_nat count)) fs').
  split; [|split; [exact Hrows|split; [lia|split; [exact Hids|]]]].
  - unfold post_generate.
    assert (Hne : (Query countQuery =? "")%string = false).
    { apply String.eqb_neq. intros E. rewrite E in Hp. discriminate. }
    rewrite Hne, Hp, Hp0. unfold bind. rewrite Hrun. reflexivity.
  - intros t n Ht Hn. pose proof (next_rowid_fresh d t Ht) as Hfresh.
    assert (Hge : SQL.next_rowid d <= ID n).
    { destruct (consecutive_increasing (Z.to_nat count) (SQL.next_rowid d)) as [_ Hf].
      rewrite <- Hids in Hf. apply (proj1 (Forall_forall _ _) Hf). now apply in_map. }
    lia.
Qed.

Lemma post_generate_appends_witness :
  exists news w',
    post_generate (Some "2") (mkWorld two_tasks 100 [])
    = (mkResponse StatusOK (H_message "Successfully generated 2 dummy tasks"), w') /\
    rows (store w') = (rows two_tasks ++ news)%list /\
    map ID news = [3; 4].
Proof.
  destruct (post_generate_appends (Some "2") 2 (mkWorld two_tasks 100 []))
    as (news & w' & Hrun & Hrows & _ & Hids & _).
  - reflexivity.
  - apply silent_nil.
  - cbn. unfold Go.max_int. lia.
  - exists news, w'. repeat split; assumption.
Defined.

(** ** Positions under the requests that cannot share one *)










(** ** When an update, a reorder or a generate keeps the positions distinct *)

Lemma NoDup_map_index {A B} (f : A -> B) (l : list A) :
  NoDup (map f l) <->
  (forall i j a b, nth_error l i = Some a -> nth_error l j = Some b -> f a = f b -> i = j).
Proof.
  split.
  - intros Hnd i j a b Hi Hj Heq.
    assert (Hli : (i < length (map f l))%nat).
    { rewrite length_map. apply nth_error_Some. congruence. }
    apply (proj1 (NoDup_nth_error (map f l)) Hnd i j Hli).
    rewrite !nth_error_map, Hi, Hj. cbn. now rewrite Heq.
  - intros H. apply NoDup_nth_error. intros i j Hi Heq.
    rewrite length_map in Hi. rewrite !nth_error_map in Heq.
    destruct (nth_error l i) as [a|] eqn:Ei.
    2:{ apply nth_error_None in Ei. lia. }
    destruct (nth_error l j) as [b|] eqn:Ej; [|discriminate].
    cbn in Heq. inversion Heq. now apply (H i j a b).
Qed.

Lemma NoDup_map_inj {A B} (f : A -> B) (l : list A) a b :
  NoDup (map f l) -> In a l -> In b l -> f a = f b -> a = b.
Proof.
  intros Hnd Ha Hb Heq.
  apply In_nth_error in Ha as [i Hi]. apply In_nth_error in Hb as [j Hj].
  assert (i = j) by (apply (proj1 (NoDup_map_index f l) Hnd i j a b); assumption).
  subst j. congruence.
Qed.

(** X25.  An update to a free position keeps the invariant.  With ids a key
    and positions pairwise distinct, a PUT on a stored id that is answered
    200 leaves the positions pairwise distinct whenever no other task holds
    the position of the body. *)
Theorem put_task_to_a_free_position idParam id body input w :
  positive_int idParam = Some id ->
  0 < SQL.count_id id (store w) ->
  bind_input body = Some input ->
  NoDup (map ID (rows (store w))) ->
  distinct_positions (store w) ->
  (forall t, In t (rows (store w)) -> Position t = in_Position input -> ID t = id) ->
  quiet 2 (faults w) ->
  exists w',
    put_task idParam body w
    = (mkResponse StatusOK (H_message "Task updated successfully"), w') /\
    distinct_positions (store w').
Proof.
  destruct w as [d c fs]. cbn [store faults]. intros Hp Hex Hb Hkey Hd Hfree Hq.
  apply positive_int_Some in Hp as (Hp & Hp0 & _).
  apply quiet_S in Hq as [H0 Hq]. apply quiet_S in Hq as [H1 _].
  eexists. split.
  { unfold put_task. rewrite Hp, Hp0. unfold bind at 1.
    rewrite CheckTaskExists_ok by assumption.
    replace (0 <? SQL.count_id id d) with true by (symmetry; now apply Z.ltb_lt).
    rewrite Hb. unfold bind. rewrite UpdateTask_ok by assumption. reflexivity. }
  cbn [store]. unfold distinct_positions in *. cbn [SQL.update_task rows].
  apply NoDup_map_index. intros i j a' b' Hi Hj Heq.
  rewrite nth_error_map in Hi, Hj.
  destruct (nth_error (rows d) i) as [a|] eqn:Ei; [|discriminate].
  destruct (nth_error (rows d) j) as [b|] eqn:Ej; [|discriminate].
  cbn in Hi, Hj. inversion Hi; inversion Hj; subst a' b'. clear Hi Hj.
  pose proof (nth_error_In _ _ Ei) as Ha. pose proof (nth_error_In _ _ Ej) as Hb'.
  destruct (ID a =? id) eqn:Ea; destruct (ID b =? id) eqn:Eb; cbn in Heq.
  - apply Z.eqb_eq in Ea, Eb.
    apply (proj1 (NoDup_map_index ID (rows d)) Hkey i j a b); congruence.
  - apply Z.eqb_neq in Eb. elim Eb. apply Hfree; congruence.
  - apply Z.eqb_neq in Ea. elim Ea. apply Hfree; congruence.
  - apply (proj1 (NoDup_map_index Position (rows d)) Hd i j a b); assumption.
Qed.

Lemma put_task_to_a_free_position_witness :
  exists w',
    put_task "2" (single_body "B" 5) (mkWorld two_tasks 100 [])
    = (mkResponse StatusOK (H_message "Task updated successfully"), w') /\
    distinct_positions (store w').
Proof.
  apply (put_task_to_a_free_position "2" 2 (single_body "B" 5) (mkInput "B" "" 5)
           (mkWorld two_tasks 100 [])).
  - reflexivity.
  - reflexivity.
  - reflexivity.
  - cbn. repeat constructor; cbn; intuition lia.
  - unfold distinct_positions. cbn. repeat constructor; cbn; intuition lia.
  - cbn. intros t [<-|[<-|[]]]; cbn; lia.
  - apply quiet_nil.
Defined.

Lemma apply_items_length items : forall c d,
  length (rows (apply_items items c d)) = length (rows d).
Proof.
  induction items as [|it rest IH]; intros c d; cbn [apply_items]; [reflexivity|].
  rewrite IH. cbn. apply length_map.
Qed.

(** X26.  A reorder that permutes positions keeps the invariant.  With ids
    a key and positions pairwise distinct, a batch that names each id once
    and each position once, and whose positions are held by no task that
    the batch leaves out, is answered 200 (when the storage calls succeed)
    and leaves the positions pairwise distinct; a swap of two tasks is such
    a batch. *)
Theorem reorder_to_distinct_positions body items w :
  bind_items body = Some items ->
  Forall (item_ok (store w)) items ->
  NoDup (map item_ID items) ->
  NoDup (map item_Position items) ->
  NoDup (map ID (rows (store w))) ->
  distinct_positions (store w) ->
  (forall t, In t (rows (store w)) ->
     ~ In (ID t) (map item_ID items) -> ~ In (Position t) (map item_Position items)) ->
  quiet (length items + 1 + length items + 1) (faults w) ->
  exists w',
    patch_reorder body w
    = (mkResponse StatusOK (H_message "Tasks reordered successfully"), w') /\
    distinct_positions (store w').
Proof.
  destruct w as [d c fs]. cbn [store faults].
  intros Hb Hok Hids Hposs Hkey Hd Hout Hq.
  eexists. split; [apply (patch_reorder_ok body items); assumption|]. cbn [store].
  unfold distinct_positions in *.
  assert (Hrow : forall i a', nth_error (rows (apply_items items c d)) i = Some a' ->
            exists a, nth_error (rows d) i = Some a /\ In a (rows d) /\
              ((In (ID a) (map item_ID items) /\
                exists it, In it items /\ item_ID it = ID a /\ Position a' = item_Position it) \/
               (~ In (ID a) (map item_ID items) /\ a' = a))).
  { intros i a' Hi.
    assert (Hlt : (i < length (rows d))%nat).
    { rewrite <- (apply_items_length items c d). apply nth_error_Some. congruence. }
    destruct (nth_error (rows d) i) as [a|] eqn:Ei.
    2:{ apply nth_error_None in Ei. lia. }
    exists a. split; [reflexivity|]. split; [now apply (nth_error_In _ i)|].
    destruct (apply_items_row items c d i a Ei) as (t' & Hn & _ & _ & _ & _ & Hun & Hnamed).
    rewrite Hi in Hn. inversion Hn; subst t'.
    destruct (in_dec Z.eq_dec (ID a) (map item_ID items)) as [Hin|Hnin].
    - left. split; [exact Hin|]. apply in_map_iff in Hin as (it & Hit & Hin).
      exists it. repeat split; try assumption. now apply Hnamed.
    - right. split; [exact Hnin | now apply Hun]. }
  apply NoDup_map_index. intros i j a' b' Hi Hj Heq.
  destruct (Hrow i a' Hi) as (a & Ei & Ha & Hca).
  destruct (Hrow j b' Hj) as (b & Ej & Hb' & Hcb).
  destruct Hca as [(Hina & ita & Hita & Hida & Hpa)|(Hna & ->)];
    destruct Hcb as [(Hinb & itb & Hitb & Hidb & Hpb)|(Hnb & ->)].
  - assert (ita = itb).
    { apply (NoDup_map_inj item_Position items); try assumption. congruence. }
    subst itb. apply (proj1 (NoDup_map_index ID (rows d)) Hkey i j a b); congruence.
  - exfalso. apply (Hout b Hb' Hnb). rewrite <- Heq, Hpa. now apply in_map.
  - exfalso. apply (Hout a Ha Hna). rewrite Heq, Hpb. now apply in_map.
  - apply (proj1 (NoDup_map_index Position (rows d)) Hd i j a b); assumption.
Qed.

Lemma reorder_to_distinct_positions_witness :
  let body := Some (JArr [JObj [("id", JInt 1); ("position", JInt 2)];
                          JObj [("id", JInt 2); ("position", JInt 1)]]) in
  exists w',
    patch_reorder body (mkWorld two_tasks 100 [])
    = (mkResponse StatusOK (H_message "Tasks reordered successfully"), w') /\
    distinct_positions (store w').
Proof.
  intros body.
  apply (reorder_to_distinct_positions body [mkItem 1 2; mkItem 2 1] (mkWorld two_tasks 100 [])).
  - reflexivity.
  - repeat constructor; cbn; lia.
  - cbn. repeat constructor; cbn; intuition lia.
  - cbn. repeat constructor; cbn; intuition lia.
  - cbn. repeat constructor; cbn; intuition lia.
  - unfold distinct_positions. cbn. repeat constructor; cbn; intuition lia.
  - cbn. intros t [<-|[<-|[]]]; cbn; intuition lia.
  - apply quiet_nil.
Defined.

Lemma max_position_bound d t : In t (rows d) -> Position t <= max_position d.
Proof.
  unfold max_position. induction (rows d) as [|a l IH]; cbn; [contradiction|].
  intros [->|H]; [lia|]. specialize (IH H). lia.
Qed.

Lemma consecutive_NoDup n : forall a, NoDup (consecutive a n).
Proof.
  induction n as [|n IH]; intros a; cbn; constructor; [|apply IH].
  intros Hin. destruct (consecutive_increasing n (a + 1)) as [_ Hf].
  pose proof (proj1 (Forall_forall _ _) Hf a Hin) as Hle. cbn in Hle. lia.
Qed.

(** X27.  Generating after the last task keeps the invariant.  With
    positions pairwise distinct, when the task with the largest id also
    holds the largest position, [GenerateDummyTasks] (no storage call
    failing, ids and positions within [int]) leaves the positions pairwise
    distinct: the new positions start above every stored one. *)
Theorem generate_after_the_last_position count w :
  0 < count ->
  silent (faults w) ->
  SQL.next_rowid (store w) + count - 1 <= Go.max_int ->
  Go.min_int <= last_position (store w) ->
  last_position (store w) + count <= Go.max_int ->
  distinct_positions (store w) ->
  max_position (store w) <= last_position (store w) ->
  exists w',
    utils.GenerateDummyTasks count w = (None, w') /\
    distinct_positions (store w').
Proof.
  destruct w as [d c fs]. cbn [store faults]. intros Hpos Hs Hroom Hlo Hhi Hd Hmax.
  destruct (GenerateDummyTasks_ok count d c fs Hs) as (d' & fs' & Hrun & Hrows); [lia|].
  eexists. split; [exact Hrun|]. cbn [store].
  assert (Hsp : start_position d = last_position d + 1).
  { unfold start_position, last_position in *.
    destruct (SQL.last_by_id (rows d)); [|reflexivity].
    apply wrap_in_range. lia. }
  unfold distinct_positions in *. rewrite Hrows, map_app.
  rewrite generated_rows_positions by lia.
  apply NoDup_app; [exact Hd | apply consecutive_NoDup |].
  intros p Hp Hin. apply in_map_iff in Hp as (t & <- & Ht).
  pose proof (max_position_bound d t Ht) as Hb.
  destruct (consecutive_increasing (Z.to_nat count) (start_position d + 0)) as [_ Hf].
  pose proof (proj1 (Forall_forall _ _) Hf _ Hin) as Hle. cbn in Hle. lia.
Qed.

Lemma generate_after_the_last_position_witness :
  exists w',
    utils.GenerateDummyTasks 3 (mkWorld two_tasks 100 []) = (None, w') /\
    distinct_positions (store w').
Proof.
  apply (generate_after_the_last_position 3 (mkWorld two_tasks 100 [])).
  - lia.
  - apply silent_nil.
  - cbn. unfold Go.max_int. lia.
  - cbn. unfold Go.min_int. lia.
  - cbn. unfold Go.max_int. lia.
  - unfold distinct_positions. cbn. repeat constructor; cbn; intuition lia.
  - cbn. lia.
Defined.
